(** * Protocol generator: template patching for Bayesian-optimisation runs

    A shallow embedding of [Hint/protocol_generator.py].  The module reads a
    table of experiment parameters, renders it with [json.dumps], splices the
    rendering into the text of a base protocol with [re.sub], renames the
    protocol with [str.replace] and writes the result next to the template.

    Text is a list of characters; a character is a code point below 256, so
    the development covers Latin-1 text.  The file system is a finite map from
    paths to contents, standard output is a list of structured messages; a
    file that the code opens for reading in text mode gives its contents with
    [\r\n] and [\r] read as [\n].
    Integers are unbounded, and [int] and [str] convert a run of digits of
    any length: the bound that an interpreter may put on the number of digits
    of such a conversion is not part of the model. *)

From Stdlib Require Import ZArith Ascii String List Lia Permutation.
From Stdlib Require Import Numbers.DecimalString.
From Stdlib Require Numbers.DecimalPos Numbers.DecimalZ.
From stdpp Require Import base option list gmap strings.

Abbreviation str := (list ascii).

(** String literals of the source are written [lit "..."]. *)
Definition lit (s : string) : str := list_ascii_of_string s.

(** ** Text primitives *)

Module Text.

(** [s.startswith(p)] *)
Fixpoint starts_with (p s : str) : bool :=
  match p, s with
  | [], _ => true
  | _ :: _, [] => false
  | a :: p', b :: s' => Ascii.eqb a b && starts_with p' s'
  end.

(** [p in s] *)
Fixpoint contains (p s : str) : bool :=
  starts_with p s ||
  match s with
  | [] => false
  | _ :: s' => contains p s'
  end.

(** The scan of [s.replace(old, new)] for a non-empty [old]: [skip] counts
    the characters of an occurrence that still have to be passed over. *)
Fixpoint replace_go (old new : str) (skip : nat) (s : str) : str :=
  match s with
  | [] => []
  | c :: s' =>
      match skip with
      | S k => replace_go old new k s'
      | O =>
          if starts_with old s
          then new ++ replace_go old new (length old - 1) s'
          else c :: replace_go old new 0 s'
      end
  end.

(** [s.replace(old, new)]: every non-overlapping occurrence, leftmost
    first; an empty [old] matches before every character and at the end. *)
Definition replace (old new s : str) : str :=
  match old with
  | [] => new ++ flat_map (fun c => c :: new) s
  | _ :: _ => replace_go old new 0 s
  end.

(** [sep.join(parts)] *)
Fixpoint join (sep : str) (parts : list str) : str :=
  match parts with
  | [] => []
  | [p] => p
  | p :: ps => p ++ sep ++ join sep ps
  end.

(** The double quote character. *)
Definition dquote : ascii := "034"%char.

Definition spaces (n : nat) : str := repeat " "%char n.

Definition is_digit (c : ascii) : bool :=
  (48 <=? nat_of_ascii c)%nat && (nat_of_ascii c <=? 57)%nat.

Definition is_octdigit (c : ascii) : bool :=
  (48 <=? nat_of_ascii c)%nat && (nat_of_ascii c <=? 55)%nat.

Definition is_ascii_letter (c : ascii) : bool :=
  let n := nat_of_ascii c in
  ((65 <=? n)%nat && (n <=? 90)%nat) || ((97 <=? n)%nat && (n <=? 122)%nat).

Definition digit_val (c : ascii) : Z := Z.of_nat (nat_of_ascii c) - 48.

(** [int(ds)] on a run of decimal digits. *)
Definition int_of_digits (ds : str) : Z :=
  fold_left (fun acc c => 10 * acc + digit_val c)%Z ds 0%Z.

(** [str(n)] for an integer. *)
Definition str_of_int (n : Z) : str :=
  lit (NilZero.string_of_int (Z.to_int n)).

(** The longest prefix of [s] whose characters satisfy [p], and the rest. *)
Fixpoint span (p : ascii -> bool) (s : str) : str * str :=
  match s with
  | [] => ([], [])
  | c :: s' =>
      if p c then let '(a, b) := span p s' in (c :: a, b) else ([], s)
  end.

End Text.

(** ** Table cells and [json.dumps] *)

(** A value of a table column after [.tolist()].  A finite float is carried
    by the text of its [repr], which is what the encoder emits for it. *)
Inductive cell :=
| CNone
| CInt (n : Z)
| CFloat (repr : str)
| CNaN
| CInf (negative : bool)
| CBool (b : bool)
| CStr (s : str).

Module Json.
Import Text.

Definition hex_digit (n : nat) : ascii :=
  if (n <? 10)%nat then ascii_of_nat (48 + n) else ascii_of_nat (87 + n).

(** [encode_basestring_ascii]: the replacement of one character. *)
Definition escape_char (c : ascii) : str :=
  let n := nat_of_ascii c in
  if Ascii.eqb c dquote then ["\"%char; dquote]
  else if Ascii.eqb c "\" then lit "\\"
  else if Ascii.eqb c "010" then lit "\n"
  else if Ascii.eqb c "013" then lit "\r"
  else if Ascii.eqb c "009" then lit "\t"
  else if Ascii.eqb c "008" then lit "\b"
  else if Ascii.eqb c "012" then lit "\f"
  else if (32 <=? n)%nat && (n <=? 126)%nat then [c]
  else lit "\u00" ++ [hex_digit (n / 16); hex_digit (n mod 16)].

Definition encode_str (s : str) : str :=
  dquote :: flat_map escape_char s ++ [dquote].

Definition encode_cell (v : cell) : str :=
  match v with
  | CNone => lit "null"
  | CInt n => str_of_int n
  | CFloat r => r
  | CNaN => lit "NaN"
  | CInf false => lit "Infinity"
  | CInf true => lit "-Infinity"
  | CBool true => lit "true"
  | CBool false => lit "false"
  | CStr s => encode_str s
  end.

Definition newline_indent (indent level : nat) : str :=
  "010"%char :: spaces (indent * level).

(** A list value at nesting depth [level]. *)
Definition encode_list (indent level : nat) (vs : list cell) : str :=
  match vs with
  | [] => lit "[]"
  | _ :: _ =>
      lit "[" ++ newline_indent indent (S level)
      ++ join (lit "," ++ newline_indent indent (S level)) (map encode_cell vs)
      ++ newline_indent indent level ++ lit "]"
  end.

Definition encode_item (indent level : nat) (kv : str * list cell) : str :=
  encode_str (fst kv) ++ lit ": " ++ encode_list indent level (snd kv).

(** [json.dumps(d, indent=indent)] for a dictionary of lists, the keys in
    insertion order. *)
Definition dumps (d : list (str * list cell)) (indent : nat) : str :=
  match d with
  | [] => lit "{}"
  | _ :: _ =>
      lit "{" ++ newline_indent indent 1
      ++ join (lit "," ++ newline_indent indent 1) (map (encode_item indent 1) d)
      ++ newline_indent indent 0 ++ lit "}"
  end.

End Json.

(** ** Exceptions *)

(** The exceptions that escape the generators: a missing column
    ([df['colorC']]), a column label that the frame holds more than once
    ([df['colorA']] is then a frame, which has no [tolist]), and a
    replacement text that [re.sub] rejects. *)
Inductive exn :=
| KeyError (column : str)
| AttributeError
| TemplateError.

Inductive result (A : Type) :=
| Ok (a : A)
| Raise (e : exn).
Arguments Ok {A} a.
Arguments Raise {A} e.

(** ** Regular expressions *)

Module Re.
Import Text.

(** *** The replacement template of [re.sub] *)

Inductive item :=
| Chr (c : ascii)
| Whole.                      (* \g<0>: the matched text *)

(** The escapes that stand for one character. *)
Definition escape (c : ascii) : option ascii :=
  if Ascii.eqb c "a" then Some "007"%char
  else if Ascii.eqb c "b" then Some "008"%char
  else if Ascii.eqb c "f" then Some "012"%char
  else if Ascii.eqb c "n" then Some "010"%char
  else if Ascii.eqb c "r" then Some "013"%char
  else if Ascii.eqb c "t" then Some "009"%char
  else if Ascii.eqb c "v" then Some "011"%char
  else if Ascii.eqb c "\" then Some "\"%char
  else None.

Definition oct_val (ds : str) : nat :=
  fold_left (fun acc c => 8 * acc + (nat_of_ascii c - 48))%nat ds 0%nat.

(** [parse_template] for a pattern without groups.  A backslash starts an
    escape: [\g<0>] is the whole match, [\0], [\0o], [\0oo] and [\ooo] are
    octal characters, one of [\a \b \f \n \r \t \v \\] is that character,
    any other ASCII letter or group reference is an error, and everything
    else is kept with its backslash. *)
Fixpoint parse_go (fuel : nat) (s : str) : option (list item) :=
  match fuel with
  | O => None
  | S fuel =>
      match s with
      | [] => Some []
      | c :: s1 =>
          if negb (Ascii.eqb c "\") then cons (Chr c) <$> parse_go fuel s1
          else
            match s1 with
            | [] => None
            | e :: s2 =>
                if Ascii.eqb e "g" then
                  match s2 with
                  | lt :: s3 =>
                      let '(name, s4) := span (fun x => negb (Ascii.eqb x ">")) s3 in
                      match s4 with
                      | _ :: s5 =>
                          if Ascii.eqb lt "<" && negb (Nat.eqb (length name) 0)
                             && forallb is_digit name
                             && (int_of_digits name =? 0)%Z
                          then cons Whole <$> parse_go fuel s5
                          else None
                      | [] => None
                      end
                  | [] => None
                  end
                else if Ascii.eqb e "0" then
                  match s2 with
                  | d1 :: d2 :: s4 =>
                      if is_octdigit d1 && is_octdigit d2
                      then cons (Chr (ascii_of_nat (oct_val [d1; d2]))) <$> parse_go fuel s4
                      else if is_octdigit d1
                      then cons (Chr (ascii_of_nat (oct_val [d1]))) <$> parse_go fuel (d2 :: s4)
                      else cons (Chr "000"%char) <$> parse_go fuel s2
                  | [d1] =>
                      if is_octdigit d1
                      then Some [Chr (ascii_of_nat (oct_val [d1]))]
                      else cons (Chr "000"%char) <$> parse_go fuel s2
                  | [] => Some [Chr "000"%char]
                  end
                else if is_digit e then
                  match s2 with
                  | d2 :: d3 :: s4 =>
                      if is_octdigit e && is_octdigit d2 && is_octdigit d3
                         && (oct_val [e; d2; d3] <=? 255)%nat
                      then cons (Chr (ascii_of_nat (oct_val [e; d2; d3]))) <$> parse_go fuel s4
                      else None
                  | _ => None
                  end
                else
                  match escape e with
                  | Some x => cons (Chr x) <$> parse_go fuel s2
                  | None =>
                      if is_ascii_letter e then None
                      else (fun r => Chr c :: Chr e :: r) <$> parse_go fuel s2
                  end
            end
      end
  end.

Definition parse_template (repl : str) : option (list item) :=
  parse_go (S (length repl)) repl.

(** The text a template stands for at the match [m]. *)
Definition expand (tmpl : list item) (m : str) : str :=
  flat_map (fun it => match it with Chr c => [c] | Whole => m end) tmpl.

(** *** Substitution *)

Section Sub.
(** [match_here s] is the length of the match that starts at the head of
    [s], if there is one. *)
Variable match_here : str -> option nat.
Variable tmpl : list item.

(** The scan of [re.sub]: [skip] counts the characters of the current
    match that still have to be passed over. *)
Fixpoint sub_go (skip : nat) (s : str) : str :=
  match s with
  | [] => []
  | c :: s' =>
      match skip with
      | S k => sub_go k s'
      | O =>
          match match_here s with
          | Some n => expand tmpl (take n s) ++ sub_go (n - 1) s'
          | None => c :: sub_go 0 s'
          end
      end
  end.
End Sub.

(** [re.sub(pattern, repl, s)] for a pattern that matches no empty text: the
    template is compiled first, then every match is replaced, leftmost
    first. *)
Definition sub (match_here : str -> option nat) (repl s : str) : result str :=
  match parse_template repl with
  | None => Raise TemplateError
  | Some tmpl => Ok (sub_go match_here tmpl 0 s)
  end.

(** [re.search(...)]: the result of the matcher at the leftmost position
    where it succeeds. *)
Fixpoint search {A} (match_here : str -> option A) (s : str) : option A :=
  match match_here s with
  | Some r => Some r
  | None =>
      match s with
      | [] => None
      | _ :: s' => search match_here s'
      end
  end.

End Re.

(** ** The world of the generator *)

(** A data frame: its columns in order, each a name and the values of the
    rows. *)
Abbreviation DataFrame := (list (str * list cell)).

(** What [print] receives; the text pandas and the exceptions would render
    is not modelled, the messages carry the values that are interpolated. *)
Inductive msg :=
| MLoaded (csv_file_path : str)
| MShape (df : DataFrame)
| MColumns (df : DataFrame)
| MErrorReadingCsv
| MProcessingDataFrame (iteration_number : Z)
| MExperiments (n : nat)
| MErrorReadingBase
| MGenerated (protocol_path : str)
| MErrorWriting
| MProcessed
| MFirstRows (df : DataFrame)
| MProtocolFile (protocol_path : str)
| MCsvNotFound (csv_file_path : str)
| MErrorProcessing.

(** The file system maps a path to the text stored there; [writable] tells
    whether [open(path, 'w')] succeeds.  Two paths name the same file only
    when they are the same text. *)
Record world := World {
  files : gmap str str;
  writable : str -> bool;
  stdout : list msg
}.

Definition print (m : msg) (w : world) : world :=
  World (files w) (writable w) (stdout w ++ [m]).

(** Several [print] statements in a row. *)
Definition prints (ms : list msg) (w : world) : world :=
  fold_left (fun w m => print m w) ms w.

Definition write_file (path content : str) (w : world) : world :=
  World (<[path := content]> (files w)) (writable w) (stdout w).

(** The outcome of [pd.read_csv]. *)
Inductive csv_read :=
| CsvFrame (df : DataFrame)
| CsvNotFound
| CsvUnreadable.

(** [os.path.join(a, b)] *)
Definition path_join (a b : str) : str :=
  if Text.starts_with (lit "/") b then b
  else match a with
       | [] => b
       | _ :: _ =>
           if decide (last a = Some "/"%char) then a ++ b else a ++ lit "/" ++ b
       end.

(** ** Reading a text file *)

Definition CR : ascii := "013"%char.

(** The text that a file opened in text mode gives: [\r\n] and a lone [\r]
    are read as [\n]. *)
Fixpoint universal_newlines (s : str) : str :=
  match s with
  | [] => []
  | c :: s' =>
      if Ascii.eqb c CR then
        "010"%char
        :: match s' with
           | c' :: s'' =>
               if Ascii.eqb c' "010" then universal_newlines s''
               else universal_newlines s'
           | [] => []
           end
      else c :: universal_newlines s'
  end.

(** [open(path, 'r').read()]: the text of the file as it is read, or
    [None] when the file cannot be opened. *)
Definition read_text (w : world) (path : str) : option str :=
  universal_newlines <$> files w !! path.

(** ** The generator *)

Section Generator.
Import Text.

(** The parser behind [pd.read_csv], from the text of a file to a frame. *)
Variable parse_csv : str -> option DataFrame.

Definition read_csv (w : world) (path : str) : csv_read :=
  match files w !! path with
  | None => CsvNotFound
  | Some text =>
      match parse_csv text with
      | Some df => CsvFrame df
      | None => CsvUnreadable
      end
  end.

(** [df[name].tolist()]: the values of the one column labelled [name]. *)
Fixpoint column (df : DataFrame) (name : str) : result (list cell) :=
  match df with
  | [] => Raise (KeyError name)
  | (k, vs) :: df' =>
      if decide (k = name)
      then if decide (name ∈ df'.*1) then Raise AttributeError else Ok vs
      else column df' name
  end.

(** The dictionary literal [bo_data]: the four columns are looked up from
    left to right and stored under their names in that order. *)
Definition bo_data (df : DataFrame) : result (list (str * list cell)) :=
  match column df (lit "colorA") with
  | Raise e => Raise e
  | Ok a =>
      match column df (lit "colorB") with
      | Raise e => Raise e
      | Ok b =>
          match column df (lit "colorC") with
          | Raise e => Raise e
          | Ok c =>
              match column df (lit "DispensePos") with
              | Raise e => Raise e
              | Ok d =>
                  Ok [(lit "colorA", a); (lit "colorB", b);
                      (lit "colorC", c); (lit "DispensePos", d)]
              end
          end
      end
  end.

Definition protocol_filename (iteration_number : Z) : str :=
  lit "color_mixing_BO" ++ str_of_int iteration_number ++ lit ".py".

Definition base_protocol_path : str := lit "color_mixing.py".

(** The f-string [data_section]. *)
Definition data_section (d : list (str * list cell)) (iteration_number : Z) : str :=
  lit "    # BO ITERATION DATA - BO" ++ str_of_int iteration_number
  ++ ["010"%char] ++ lit "    BO_DATA = "
  ++ replace (lit "}") ("010"%char :: lit "    }")
       (replace (lit "{") (lit "{" ++ "010"%char :: lit "        ")
          (Json.dumps d 8)).

(** The literal head of [pattern], up to and including the open brace. *)
Definition marker : str :=
  lit "    # BO ITERATION DATA - WILL BE REPLACED DYNAMICALLY"
  ++ ["010"%char] ++ lit "    BO_DATA = {".

Definition not_close (c : ascii) : bool := negb (Ascii.eqb c "}").

(** The regular expression [pattern] at the head of [s]: the marker, then
    [[^}]+], the longest non-empty run without a close brace (it crosses
    line ends), then the close brace that stops the run. *)
Definition pattern (s : str) : option nat :=
  if starts_with marker s then
    match span not_close (drop (length marker) s) with
    | ((_ :: _) as body, _ :: _) => Some (length marker + length body + 1)
    | _ => None
    end
  else None.

Definition protocol_name : str :=
  lit "'protocolName': 'Color Liquid Mixing - Bayesian Optimization',".

Definition iteration_name (iteration_number : Z) : str :=
  lit "'protocolName': 'Color Liquid Mixing - BO Iteration "
  ++ str_of_int iteration_number ++ lit "',".

(** The two assignments to [updated_content]: [re.sub] of the data
    section, then [str.replace] of the protocol name. *)
Definition updated_content (protocol_content : str)
    (d : list (str * list cell)) (iteration_number : Z) : result str :=
  match Re.sub pattern (data_section d iteration_number) protocol_content with
  | Raise e => Raise e
  | Ok text =>
      Ok (replace protocol_name (iteration_name iteration_number) text)
  end.

(** [generate_protocol_from_csv(csv_file_path, iteration_number, output_dir)]:
    the value returned or the exception raised, and the world afterwards. *)
Definition generate_protocol_from_csv (csv_file_path : str)
    (iteration_number : Z) (output_dir : str) (w : world)
  : result (option str) * world :=
  match read_csv w csv_file_path with
  | CsvNotFound | CsvUnreadable => (Ok None, print MErrorReadingCsv w)
  | CsvFrame df =>
      let w := prints [MLoaded csv_file_path; MShape df; MColumns df] w in
      match bo_data df with
      | Raise e => (Raise e, w)
      | Ok d =>
          let protocol_path :=
            path_join output_dir (protocol_filename iteration_number) in
          match read_text w base_protocol_path with
          | None => (Ok None, print MErrorReadingBase w)
          | Some protocol_content =>
              match updated_content protocol_content d iteration_number with
              | Raise e => (Raise e, w)
              | Ok text =>
                  if writable w protocol_path
                  then (Ok (Some protocol_path),
                        print (MGenerated protocol_path)
                          (write_file protocol_path text w))
                  else (Ok None, print MErrorWriting w)
              end
          end
      end
  end.

(** [generate_protocol_from_dataframe(df, iteration_number, output_dir)] *)
Definition generate_protocol_from_dataframe (df : DataFrame)
    (iteration_number : Z) (output_dir : str) (w : world)
  : result (option str) * world :=
  match bo_data df with
  | Raise e => (Raise e, w)
  | Ok d =>
      let experiments :=
        match d with (_, a) :: _ => length a | [] => 0%nat end in
      let w := prints [MProcessingDataFrame iteration_number; MShape df;
                       MExperiments experiments] w in
      let protocol_path :=
        path_join output_dir (protocol_filename iteration_number) in
      match read_text w base_protocol_path with
      | None => (Ok None, print MErrorReadingBase w)
      | Some protocol_content =>
          match updated_content protocol_content d iteration_number with
          | Raise e => (Raise e, w)
          | Ok text =>
              if writable w protocol_path
              then (Ok (Some protocol_path),
                    print (MGenerated protocol_path)
                      (write_file protocol_path text w))
              else (Ok None, print MErrorWriting w)
          end
      end
  end.

(** The regular expression [BO_R(\d+)] at the head of [s]; the result is
    the text of the group, the longest run of digits after [BO_R]. *)
Definition bo_r (s : str) : option str :=
  if starts_with (lit "BO_R") s then
    match span is_digit (drop 4 s) with
    | ((_ :: _) as digits, _) => Some digits
    | _ => None
    end
  else None.

(** The iteration number [update_csv_data_handler] takes from the path. *)
Definition iteration_of (csv_file_path : str) : Z :=
  match Re.search bo_r csv_file_path with
  | Some digits => int_of_digits digits
  | None => 0
  end.

(** [update_csv_data_handler(csv_file_path)]; every exception is caught,
    so the function returns a path or [None]. *)
Definition update_csv_data_handler (csv_file_path : str) (w : world)
  : option str * world :=
  let iteration_number := iteration_of csv_file_path in
  match generate_protocol_from_csv csv_file_path iteration_number (lit ".") w with
  | (Raise _, w) => (None, print MErrorProcessing w)
  | (Ok (Some ((_ :: _) as protocol_path)), w) =>
      match read_csv w csv_file_path with
      | CsvFrame df =>
          (Some protocol_path,
           prints [MProcessed; MShape df; MColumns df; MFirstRows df;
                   MProtocolFile protocol_path] w)
      | CsvNotFound => (None, print (MCsvNotFound csv_file_path) w)
      | CsvUnreadable => (None, print MErrorProcessing w)
      end
  | (Ok _, w) => (None, w)
  end.

End Generator.

(** ** Lines of a text, and the lines a patch cannot touch *)

Definition LF : ascii := "010"%char.

(** [text.split('\n')], with the line being read in [acc]. *)
Fixpoint lines_go (acc : str) (s : str) : list str :=
  match s with
  | [] => [acc]
  | c :: s' =>
      if Ascii.eqb c LF then acc :: lines_go [] s'
      else lines_go (acc ++ [c]) s'
  end.

Definition lines (s : str) : list str := lines_go [] s.

(** The number of characters, from the head of [s] on, that lie inside a
    region matched by [pattern] or an occurrence of [protocol_name] that
    starts at the head of [s]. *)
Definition covered_from (s : str) : nat :=
  Nat.max (match pattern s with Some n => n | None => 0 end)
          (if Text.starts_with protocol_name s then length protocol_name else 0).

(** The lines of a text that lie outside every region and every occurrence
    of the protocol name: [k] counts the characters still covered by a
    region or occurrence that started earlier, [cur] is the line being read
    as long as none of its characters was covered. *)
Fixpoint clear_go (k : nat) (cur : option str) (s : str) : list str :=
  match s with
  | [] => match cur with Some l => [l] | None => [] end
  | c :: s' =>
      match Nat.max k (covered_from s) with
      | S k' =>
          clear_go k' (if Ascii.eqb c LF then Some [] else None) s'
      | O =>
          if Ascii.eqb c LF
          then match cur with
               | Some l => l :: clear_go 0 (Some []) s'
               | None => clear_go 0 (Some []) s'
               end
          else clear_go 0 ((fun l => l ++ [c]) <$> cur) s'
      end
  end.

Definition clear_lines (s : str) : list str := clear_go 0 (Some []) s.

(** A text rewritten from left to right: a character is kept, or an
    occurrence [m] (followed by [t]) is replaced by [x], as [R m t x]
    allows. *)
Inductive Rw (R : str -> str -> str -> Prop) : str -> str -> Prop :=
| Rw_nil : Rw R [] []
| Rw_keep c t u : Rw R t u -> Rw R (c :: t) (c :: u)
| Rw_repl m x t u : R m t x -> Rw R t u -> Rw R (m ++ t) (x ++ u).


(** * Facts about the text primitives *)

Section TextFacts.
Import Text.

Lemma starts_with_true p s :
  starts_with p s = true <-> exists t, s = p ++ t.
Proof.
  revert s; induction p as [|a p IH]; intros s; simpl.
  - split; eauto.
  - destruct s as [|b s]; simpl.
    + split; [discriminate | intros [t Ht]; discriminate].
    + rewrite andb_true_iff, Ascii.eqb_eq, IH. split.
      * intros [-> [t ->]]. eauto.
      * intros [t Ht]. injection Ht as -> ->. eauto.
Qed.

Lemma starts_with_app p t : starts_with p (p ++ t) = true.
Proof. apply starts_with_true. eauto. Qed.

Lemma replace_go_skip old new k s :
  replace_go old new k s = replace_go old new 0 (drop k s).
Proof.
  revert s; induction k as [|k IH]; intros [|c s]; simpl; try reflexivity.
  apply IH.
Qed.

Lemma replace_go_nil old new k : replace_go old new k [] = [].
Proof. reflexivity. Qed.

(** [str.replace] rewrites the text from left to right: a character is
    kept, or an occurrence of [old] becomes [new]. *)
Lemma replace_go_Rw old new s :
  old <> [] -> Rw (fun m _ x => m = old /\ x = new) s (replace_go old new 0 s).
Proof.
  intros Hold.
  remember (length s) as n eqn:Hn. revert s Hn.
  induction n as [n IH] using lt_wf_ind. intros [|c s] Hn.
  - constructor.
  - simpl. destruct (starts_with old (c :: s)) eqn:Hsw.
    + apply starts_with_true in Hsw as [t Ht].
      destruct old as [|o old]; [done|]. simpl in Ht. injection Ht as <- ->.
      rewrite replace_go_skip.
      replace (length (c :: old) - 1) with (length old) by (simpl; lia).
      rewrite drop_app_length.
      apply (Rw_repl _ (c :: old) new t); [done|].
      apply (IH (length t)); [|done].
      subst n. simpl. rewrite length_app. lia.
    + constructor. apply (IH (length s)); [subst n; simpl; lia | done].
Qed.

Lemma span_app p s :
  s = fst (span p s) ++ snd (span p s).
Proof.
  induction s as [|c s IH]; simpl; [done|].
  destruct (p c); [|done]. destruct (span p s) as [a b]. simpl in *.
  by f_equal.
Qed.

Lemma span_fst_Forall p s : Forall (fun c => p c = true) (fst (span p s)).
Proof.
  induction s as [|c s IH]; simpl; [constructor|].
  destruct (p c) eqn:Hc; [|constructor].
  destruct (span p s) as [a b]. simpl in *. by constructor.
Qed.

Lemma span_snd_head p s c t : snd (span p s) = c :: t -> p c = false.
Proof.
  induction s as [|c' s IH]; simpl; [done|].
  destruct (p c') eqn:Hc.
  - destruct (span p s) as [a b]. simpl in *. done.
  - simpl. intros [= -> ->]. done.
Qed.

(** [span] is determined by a split into a run that satisfies [p] and a
    rest that does not start with such a character. *)
Lemma span_unique p a b :
  Forall (fun c => p c = true) a ->
  match b with [] => True | c :: _ => p c = false end ->
  span p (a ++ b) = (a, b).
Proof.
  intros Ha Hb. induction Ha as [|c a Hc Ha IH]; simpl.
  - destruct b as [|c b]; simpl; [done|]. by rewrite Hb.
  - by rewrite Hc, IH.
Qed.

End TextFacts.

(** * Facts about substitution *)

Section SubFacts.
Variable match_here : str -> option nat.
Variable tmpl : list Re.item.

(** A match is not empty and lies inside the text. *)
Hypothesis match_here_bounds :
  forall s n, match_here s = Some n -> 0 < n <= length s.

Lemma sub_go_skip k s :
  Re.sub_go match_here tmpl k s = Re.sub_go match_here tmpl 0 (drop k s).
Proof.
  revert s; induction k as [|k IH]; intros [|c s]; simpl; try reflexivity.
  apply IH.
Qed.

Lemma sub_go_match s n :
  match_here s = Some n ->
  Re.sub_go match_here tmpl 0 s
  = Re.expand tmpl (take n s) ++ Re.sub_go match_here tmpl 0 (drop n s).
Proof.
  intros Hm. destruct (match_here_bounds _ _ Hm) as [Hn _].
  destruct s as [|c s]; simpl.
  - apply match_here_bounds in Hm. simpl in Hm. lia.
  - rewrite Hm. f_equal. rewrite sub_go_skip.
    destruct n as [|n]; [lia|]. simpl. by rewrite Nat.sub_0_r.
Qed.

Lemma sub_go_no_match c s :
  match_here (c :: s) = None ->
  Re.sub_go match_here tmpl 0 (c :: s) = c :: Re.sub_go match_here tmpl 0 s.
Proof. intros Hm. simpl. by rewrite Hm. Qed.

(** [re.sub] rewrites the text from left to right: a character is kept,
    or a match becomes the expansion of the template. *)
Lemma sub_go_Rw s :
  Rw (fun m t x => match_here (m ++ t) = Some (length m)
                   /\ x = Re.expand tmpl m)
     s (Re.sub_go match_here tmpl 0 s).
Proof.
  remember (length s) as k eqn:Hk. revert s Hk.
  induction k as [k IH] using lt_wf_ind. intros s Hk.
  destruct s as [|c s]; [constructor|].
  destruct (match_here (c :: s)) as [n|] eqn:Hm.
  - rewrite (sub_go_match _ _ Hm).
    destruct (match_here_bounds _ _ Hm) as [Hn1 Hn2].
    rewrite <- (take_drop n (c :: s)) at 1.
    apply Rw_repl.
    + rewrite take_drop, length_take_le by done. done.
    + apply (IH (length (drop n (c :: s)))); [|done].
      rewrite length_drop. subst k. lia.
  - rewrite sub_go_no_match by done. constructor.
    apply (IH (length s)); [subst k; simpl; lia | done].
Qed.

End SubFacts.

(** * Facts about the pattern of the data region *)

Section PatternFacts.
Import Text.

Lemma not_close_true c : not_close c = true <-> c <> "}"%char.
Proof.
  unfold not_close. rewrite negb_true_iff.
  destruct (Ascii.eqb_spec c "}"); split; congruence.
Qed.

Lemma not_close_false c : not_close c = false <-> c = "}"%char.
Proof.
  unfold not_close. rewrite negb_false_iff. apply Ascii.eqb_eq.
Qed.

(** What [pattern] matches: the marker, a non-empty body without a close
    brace, and the first close brace after it. *)
Lemma pattern_Some s n :
  pattern s = Some n ->
  exists body rest,
    s = marker ++ body ++ "}"%char :: rest /\ body <> [] /\
    Forall (fun c => c <> "}"%char) body /\
    n = length marker + length body + 1.
Proof.
  unfold pattern. destruct (starts_with marker s) eqn:Hsw; [|done].
  apply starts_with_true in Hsw as [t ->]. rewrite drop_app_length.
  pose proof (span_app not_close t) as Hsplit.
  pose proof (span_fst_Forall not_close t) as Hbody.
  pose proof (span_snd_head not_close t) as Htail.
  destruct (span not_close t) as [body tail]. simpl in *.
  destruct body as [|b body]; [done|]. destruct tail as [|c rest]; [done|].
  intros [= <-]. exists (b :: body), rest.
  rewrite (proj1 (not_close_false c) (Htail c rest eq_refl)) in Hsplit.
  split_and!; [by rewrite Hsplit | done | | done].
  eapply Forall_impl; [exact Hbody|]. intros x. apply not_close_true.
Qed.

Lemma pattern_region body rest :
  body <> [] -> Forall (fun c => c <> "}"%char) body ->
  pattern (marker ++ body ++ "}"%char :: rest)
  = Some (length marker + length body + 1).
Proof.
  intros Hne Hbody. unfold pattern.
  rewrite starts_with_app, drop_app_length, span_unique.
  - destruct body; done.
  - eapply Forall_impl; [exact Hbody|]. intros x. apply not_close_true.
  - by apply not_close_false.
Qed.

Lemma pattern_bounds s n : pattern s = Some n -> 0 < n <= length s.
Proof.
  intros (body & rest & -> & _ & _ & ->)%pattern_Some.
  rewrite !length_app. simpl. lia.
Qed.

End PatternFacts.

(** * Facts about the replacement template *)

Section TemplateFacts.
Import Text.

Lemma parse_go_nil f tmpl : Re.parse_go f [] = Some tmpl -> tmpl = [].
Proof. destruct f; simpl; congruence. Qed.

Local Ltac absurd_bool :=
  exfalso;
  repeat match goal with
         | H : _ && _ = true |- _ => apply andb_true_iff in H as [? ?]
         end;
  match goal with
  | H : _ = _ |- _ => by vm_compute in H
  end.

(** A replacement text that ends with a close brace is parsed into a
    template whose last item is that close brace. *)
Lemma parse_go_last f s tmpl :
  last s = Some "}"%char -> Re.parse_go f s = Some tmpl ->
  last tmpl = Some (Re.Chr "}").
Proof.
  revert s tmpl. induction f as [|f IH]; intros s tmpl Hlast Hp; [done|].
  simpl in Hp.
  repeat case_match; simplify_eq.
  all: try match goal with
       | H : span ?p ?l = (?n, ?x :: ?r) |- _ =>
           pose proof (span_app p l) as Hs;
           pose proof (span_snd_head p l x r) as Hx;
           rewrite H in Hs, Hx; simpl in Hs, Hx; specialize (Hx eq_refl);
           apply negb_false_iff, Ascii.eqb_eq in Hx;
           rewrite Hs, !app_comm_cons, last_app_cons in Hlast; clear Hs H
       end.
  all: try match goal with
       | Hp : _ <$> Re.parse_go _ ?r = Some _ |- _ =>
           apply fmap_Some in Hp as (t & Ht & ->);
           destruct r as [|? ?] eqn:Hr;
           [ apply parse_go_nil in Ht as ->
           | rewrite ?last_cons_cons in Hlast;
             rewrite !last_cons, (IH _ _ Hlast Ht); done ]
       end.
  all: simpl in Hlast; simplify_eq; first [done | absurd_bool].
Qed.

Lemma expand_last tmpl m :
  last tmpl = Some (Re.Chr "}") -> last (Re.expand tmpl m) = Some "}"%char.
Proof.
  intros (t & ->)%last_Some. unfold Re.expand.
  rewrite flat_map_app. simpl. by rewrite last_snoc.
Qed.

(** The first two characters of a replacement text, unless one of them is
    a backslash, are the first two characters of every expansion. *)
Lemma parse_template_head c1 c2 s tmpl m :
  c1 <> "\"%char -> c2 <> "\"%char ->
  Re.parse_template (c1 :: c2 :: s) = Some tmpl ->
  exists r, Re.expand tmpl m = c1 :: c2 :: r.
Proof.
  intros H1 H2. unfold Re.parse_template. simpl.
  apply Ascii.eqb_neq in H1, H2. rewrite H1, H2. simpl.
  intros (t & (t' & Ht' & ->)%fmap_Some & ->)%fmap_Some.
  simpl. eauto.
Qed.

End TemplateFacts.

(** * Facts about the data section *)

Section DataSectionFacts.
Import Text.

(** Replacing a one-character text is a map over the characters. *)
Lemma replace_single o new s :
  replace [o] new s
  = flat_map (fun c => if Ascii.eqb o c then new else [c]) s.
Proof.
  unfold replace. induction s as [|c s IH]; simpl; [done|].
  rewrite andb_true_r. destruct (Ascii.eqb o c); by rewrite IH.
Qed.

Lemma dumps_last d indent : last (Json.dumps d indent) = Some "}"%char.
Proof.
  unfold Json.dumps. destruct d; [done|].
  change (lit "}") with ["}"%char]. rewrite !app_assoc. apply last_snoc.
Qed.

Lemma data_section_last d n : last (data_section d n) = Some "}"%char.
Proof.
  unfold data_section.
  destruct (proj1 (last_Some _ _) (dumps_last d 8)) as [body ->].
  change (lit "}") with ["}"%char]. change (lit "{") with ["{"%char].
  rewrite !replace_single, !flat_map_app, !last_app. reflexivity.
Qed.

Lemma data_section_head d n :
  exists r, data_section d n = " "%char :: " "%char :: r.
Proof. unfold data_section. eexists. reflexivity. Qed.

(** Every expansion of the data section starts with two blanks and ends
    with a close brace. *)
Lemma data_section_expand d n tmpl m :
  Re.parse_template (data_section d n) = Some tmpl ->
  (exists r, Re.expand tmpl m = " "%char :: " "%char :: r)
  /\ last (Re.expand tmpl m) = Some "}"%char.
Proof.
  intros Hp. split.
  - destruct (data_section_head d n) as [r Hr]. rewrite Hr in Hp.
    by apply (parse_template_head _ _ _ _ m) in Hp.
  - apply expand_last. eapply parse_go_last; [|exact Hp].
    apply data_section_last.
Qed.

End DataSectionFacts.

(** * Two rewriting passes in a row *)

(** No blank of [s] is its last character or followed by another blank. *)
Fixpoint no_blank_pair (s : str) : bool :=
  match s with
  | [] => true
  | a :: rest =>
      negb (Ascii.eqb a " "
            && match rest with [] => true | b :: _ => Ascii.eqb b " " end)
      && no_blank_pair rest
  end.

Lemma Rw_impl (R R' : str -> str -> str -> Prop) s u :
  (forall m t x, R m t x -> R' m t x) -> Rw R s u -> Rw R' s u.
Proof. intros HR. induction 1; constructor; auto. Qed.

Section Compose.
(** The first pass replaces occurrences allowed by [R1] with texts that
    start with two blanks and end with a close brace; the second pass
    replaces the text [L] by [L']. *)
Variable R1 : str -> str -> str -> Prop.
Variables L L' : str.

Hypothesis R1_ne : forall m t x, R1 m t x -> m <> [].
Hypothesis R1_head :
  forall m t x, R1 m t x -> exists r, x = " "%char :: " "%char :: r.
Hypothesis R1_last : forall m t x, R1 m t x -> last x = Some "}"%char.
Hypothesis L_ne : L <> [].
Hypothesis L_blank : no_blank_pair L = true.
Hypothesis L_brace : Forall (fun c => c <> "}"%char) L.

Definition R2 (m t x : str) : Prop := m = L /\ x = L'.
Definition RE (m t x : str) : Prop := (exists x', R1 m t x') \/ m = L.

(** A run of characters without a blank pair comes through the first
    pass unchanged. *)
Lemma Rw1_keeps s :
  no_blank_pair s = true ->
  forall t u, Rw R1 t (s ++ u) -> exists t', t = s ++ t' /\ Rw R1 t' u.
Proof.
  induction s as [|a s IH]; intros Hs t u Hrw; [by exists t|].
  simpl in Hs. apply andb_true_iff in Hs as [Ha Hs].
  inversion Hrw as [|c t0 u0 Hrw0|m x t0 u0 HR Hrw0 Hm Hx]; subst.
  - destruct (IH Hs _ _ Hrw0) as (t' & -> & Ht'). by exists t'.
  - exfalso. destruct (R1_head _ _ _ HR) as [r ->].
    simpl in Hx. injection Hx as <- Hx.
    destruct s as [|b s]; [done|].
    simpl in Hx. injection Hx as <- _. done.
Qed.

(** The second pass does not join the end of a replacement with what
    follows it. *)
Lemma Rw2_split x :
  x = [] \/ last x = Some "}"%char ->
  forall u o, Rw R2 (x ++ u) o -> exists o1 o2, o = o1 ++ o2 /\ Rw R2 u o2.
Proof.
  remember (length x) as n eqn:Hn. revert x Hn.
  induction n as [n IH] using lt_wf_ind. intros x Hn Hx u o Hrw.
  destruct x as [|c x]; [by exists [], o|].
  destruct Hx as [|Hx]; [done|].
  inversion Hrw as [|c0 t0 u0 Hrw0|m y t0 u0 [-> ->] Hrw0 Hm]; subst.
  - destruct (IH (length x) ltac:(simpl; lia) x eq_refl) with (u := u) (o := u0)
      as (o1 & o2 & -> & Ho2); [|done|].
    + destruct x; [by left|right]. by rewrite last_cons_cons in Hx.
    + by exists (c :: o1), o2.
  - change (c :: x ++ u) with ((c :: x) ++ u) in Hm.
    apply app_eq_inv in Hm as [(k & Hk & ->)|(k & Hk & ->)].
    + exfalso. apply last_Some in Hx as [x' Hx].
      rewrite Hk, Hx, <- app_assoc in L_brace.
      apply Forall_app in L_brace as [_ HF].
      by inversion HF.
    + destruct (IH (length k)) with (x := k) (u := u) (o := u0)
        as (o1 & o2 & -> & Ho2); [| done | | done |].
      * rewrite Hk, length_app. destruct L; [done|]. simpl. lia.
      * destruct k as [|b k]; [by left|right].
        rewrite Hk, last_app in Hx.
        destruct (last (b :: k)) eqn:E; [done|]. by apply last_None in E.
      * exists (L' ++ o1), o2. by rewrite app_assoc.
Qed.

Lemma Rw_compose s u o : Rw R1 s u -> Rw R2 u o -> Rw RE s o.
Proof.
  remember (length s) as n eqn:Hn. revert s u o Hn.
  induction n as [n IH] using lt_wf_ind. intros s u o Hn H1 H2.
  inversion H1 as [|c t0 u0 H10|m x t0 u0 HR H10]; subst.
  - inversion H2 as [| |m y t0 u0 [-> ->] _ Hm]; subst; [constructor|].
    destruct L; done.
  - inversion H2 as [|c0 t1 u1 H20|m y t1 u1 [-> ->] H20 Hm]; subst.
    + constructor. by eapply (IH (length t0)); [simpl; lia | | |].
    + destruct L as [|a L1] eqn:HL; [done|].
      simpl in Hm. injection Hm as -> <-.
      pose proof L_blank as HL1. rewrite ?HL in HL1.
      simpl in HL1. apply andb_true_iff in HL1 as [_ HL1].
      destruct (Rw1_keeps L1 HL1 _ _ H10) as (t' & -> & Ht').
      change (c :: L1 ++ t') with ((c :: L1) ++ t').
      apply Rw_repl; [by right|].
      eapply (IH (length t')); [simpl; rewrite length_app; lia | done | done | done].
  - destruct (Rw2_split x (or_intror (R1_last _ _ _ HR)) _ _ H2)
      as (o1 & o2 & -> & Ho2).
    apply Rw_repl; [left; eauto|].
    eapply (IH (length t0)); [| done | done | done].
    rewrite length_app. pose proof (R1_ne _ _ _ HR). destruct m; [done|].
    simpl. lia.
Qed.

End Compose.

(** * Lines that survive a rewriting *)

Section ClearLines.
Import Text.

Lemma clear_go_cons k cur c s :
  clear_go k cur (c :: s)
  = match Nat.max k (covered_from (c :: s)) with
    | S k' => clear_go k' (if Ascii.eqb c LF then Some [] else None) s
    | O =>
        if Ascii.eqb c LF
        then match cur with
             | Some l => l :: clear_go 0 (Some []) s
             | None => clear_go 0 (Some []) s
             end
        else clear_go 0 ((fun l => l ++ [c]) <$> cur) s
    end.
Proof. reflexivity. Qed.

Lemma lines_go_app x acc u :
  exists pre acc', lines_go acc (x ++ u) = pre ++ lines_go acc' u.
Proof.
  revert acc. induction x as [|c x IH]; intros acc; simpl.
  - by exists [], acc.
  - destruct (Ascii.eqb c LF).
    + destruct (IH []) as (pre & acc' & ->). by exists (acc :: pre), acc'.
    + apply IH.
Qed.

(** An occurrence that is covered from its first character on, and does
    not end with a line end, leaves no clear line behind. *)
Lemma clear_go_covered m :
  m <> [] -> last m <> Some LF ->
  forall k cur t,
    length m <= Nat.max k (covered_from (m ++ t)) ->
    exists k', clear_go k cur (m ++ t) = clear_go k' None t.
Proof.
  induction m as [|c m IH]; [done|]. intros _ Hlast k cur t Hk.
  change ((c :: m) ++ t) with (c :: m ++ t) in *.
  rewrite clear_go_cons.
  destruct (Nat.max k (covered_from (c :: m ++ t))) as [|k'] eqn:Hmax;
    [simpl in Hk; lia|].
  destruct m as [|c' m].
  - exists k'. simpl. destruct (Ascii.eqb_spec c LF) as [->|]; done.
  - apply IH; [done| by rewrite last_cons_cons in Hlast |].
    simpl in Hk. simpl. lia.
Qed.

(** The occurrences a patch may replace. *)
Definition patched (m t x : str) : Prop :=
  pattern (m ++ t) = Some (length m) \/ m = protocol_name.

Lemma patched_covered m t x :
  patched m t x ->
  m <> [] /\ last m <> Some LF /\ length m <= covered_from (m ++ t).
Proof.
  unfold covered_from. intros [Hp| ->].
  - rewrite Hp. pose proof Hp as (body & rest & Heq & _ & _ & Hlen)%pattern_Some.
    assert (m ++ t = (marker ++ body ++ ["}"%char]) ++ rest) as Heq'
      by (rewrite Heq, <- !app_assoc; done).
    apply app_inj_1 in Heq' as [-> _];
      [|rewrite !length_app; change (length ["}"%char]) with 1; lia].
    split_and!; [| | lia].
    + intros Hnil. apply (f_equal length) in Hnil.
      rewrite !length_app in Hnil. simpl in Hnil. lia.
    + rewrite !app_assoc, last_snoc. done.
  - rewrite starts_with_app. split_and!; [done | by vm_compute | lia].
Qed.

Lemma clear_go_sublist s o :
  Rw patched s o ->
  forall k cur acc,
    (forall l, cur = Some l -> acc = l) ->
    clear_go k cur s `sublist_of` lines_go acc o.
Proof.
  induction 1 as [|c t u _ IH|m x t u HR _ IH]; intros k cur acc Hacc.
  - simpl. destruct cur as [l|]; [|apply sublist_nil_l].
    by rewrite (Hacc l eq_refl).
  - rewrite clear_go_cons. simpl lines_go.
    destruct (Nat.max k (covered_from (c :: t))) as [|k'].
    + destruct (Ascii.eqb c LF).
      * destruct cur as [l|].
        -- rewrite (Hacc l eq_refl). apply sublist_skip, IH.
           by intros ? [= <-].
        -- apply sublist_cons, IH. by intros ? [= <-].
      * apply IH. intros l. destruct cur as [l'|]; [|done].
        simpl. intros [= <-]. by rewrite (Hacc l' eq_refl).
    + destruct (Ascii.eqb c LF).
      * apply sublist_cons, IH. by intros ? [= <-].
      * by apply IH.
  - destruct (patched_covered _ _ _ HR) as (Hne & Hlast & Hcov).
    destruct (clear_go_covered m Hne Hlast k cur t) as [k' ->]; [lia|].
    destruct (lines_go_app x acc u) as (pre & acc' & ->).
    apply sublist_inserts_l. by apply IH.
Qed.

End ClearLines.

(** * The patch and the lines around it *)

Section Frame.
Import Text.

Lemma protocol_name_facts :
  protocol_name <> [] /\ no_blank_pair protocol_name = true
  /\ Forall (fun c => c <> "}"%char) protocol_name.
Proof.
  split_and!; [done | by vm_compute |].
  apply (bool_decide_unpack _). by vm_compute.
Qed.

(** The patch only replaces regions matched by [pattern] and occurrences
    of [protocol_name]; every other character is kept, in order. *)
Lemma updated_content_Rw protocol_content d n text :
  updated_content protocol_content d n = Ok text ->
  Rw patched protocol_content text.
Proof.
  unfold updated_content, Re.sub.
  destruct (Re.parse_template (data_section d n)) as [tmpl|] eqn:Htmpl; [|done].
  intros [= <-].
  destruct protocol_name_facts as (Hne & Hblank & Hbrace).
  set (R1 := fun m t x : str =>
               pattern (m ++ t) = Some (length m) /\ x = Re.expand tmpl m).
  apply (Rw_impl (RE R1 protocol_name)).
  { intros m t x [[x' [Hp _]]| ->]; [by left | by right]. }
  apply (Rw_compose R1 protocol_name (iteration_name n))
    with (u := Re.sub_go pattern tmpl 0 protocol_content);
    try done.
  - intros m t x [Hp _] ->. apply pattern_bounds in Hp. simpl in Hp. lia.
  - intros m t x [_ ->]. by apply (data_section_expand d n).
  - intros m t x [_ ->]. by apply (data_section_expand d n).
  - apply sub_go_Rw, pattern_bounds.
  - by apply (replace_go_Rw protocol_name).
Qed.

End Frame.


(** * Texts in which nothing is found *)

(** No position inside [s] satisfies [p], when [s] is followed by [t]. *)
Fixpoint none_in (p : str -> bool) (s t : str) : bool :=
  match s with
  | [] => true
  | _ :: s' => negb (p (s ++ t)) && none_in p s' t
  end.

Definition matches (s : str) : bool :=
  match pattern s with Some _ => true | None => false end.

Section Untouched.
Import Text.

Variable tmpl : list Re.item.

Lemma sub_go_none_in s t :
  none_in matches s t = true ->
  Re.sub_go pattern tmpl 0 (s ++ t) = s ++ Re.sub_go pattern tmpl 0 t.
Proof.
  induction s as [|c s IH]; [done|]. simpl none_in.
  intros [Hc Hs]%andb_true_iff. unfold matches in Hc.
  change ((c :: s) ++ t) with (c :: s ++ t) in *.
  destruct (pattern (c :: s ++ t)) eqn:Hp; [done|].
  rewrite (sub_go_no_match _ _ _ _ Hp), IH; done.
Qed.

Lemma sub_go_region body rest :
  body <> [] -> Forall (fun c => c <> "}"%char) body ->
  Re.sub_go pattern tmpl 0 (marker ++ body ++ "}"%char :: rest)
  = Re.expand tmpl (marker ++ body ++ ["}"%char])
    ++ Re.sub_go pattern tmpl 0 rest.
Proof.
  intros Hne Hbody.
  pose proof (pattern_region body rest Hne Hbody) as Hp.
  rewrite (sub_go_match pattern tmpl pattern_bounds _ _ Hp).
  assert (marker ++ body ++ "}"%char :: rest
          = (marker ++ body ++ ["}"%char]) ++ rest) as ->
    by (by rewrite <- !app_assoc).
  rewrite take_app_length', drop_app_length'; [done| |];
    rewrite !length_app; simpl; lia.
Qed.

Lemma search_None_sub_go s :
  Re.search pattern s = None -> Re.sub_go pattern tmpl 0 s = s.
Proof.
  induction s as [|c s IH]; [done|]. simpl Re.search.
  destruct (pattern (c :: s)) eqn:Hp; [done|]. intros Hs.
  rewrite (sub_go_no_match _ _ _ _ Hp), IH; done.
Qed.

Lemma replace_go_cons old new c s :
  replace_go old new 0 (c :: s)
  = if starts_with old (c :: s)
    then new ++ replace_go old new (length old - 1) s
    else c :: replace_go old new 0 s.
Proof. reflexivity. Qed.

Lemma replace_go_none_in old new s t :
  none_in (starts_with old) s t = true ->
  replace_go old new 0 (s ++ t) = s ++ replace_go old new 0 t.
Proof.
  induction s as [|c s IH]; [done|]. simpl none_in.
  intros [Hc Hs]%andb_true_iff. apply negb_true_iff in Hc.
  change ((c :: s) ++ t) with (c :: s ++ t) in *.
  rewrite replace_go_cons, Hc, IH; done.
Qed.

Lemma replace_go_here old new t :
  old <> [] ->
  replace_go old new 0 (old ++ t) = new ++ replace_go old new 0 t.
Proof.
  intros Hold. destruct old as [|c old]; [done|].
  change ((c :: old) ++ t) with (c :: old ++ t).
  rewrite replace_go_cons.
  change (c :: old ++ t) with ((c :: old) ++ t).
  rewrite starts_with_app.
  replace (length (c :: old) - 1) with (length old) by (simpl; lia).
  by rewrite (replace_go_skip _ _ (length old)), drop_app_length.
Qed.

Lemma replace_go_absent old new s :
  contains old s = false -> replace_go old new 0 s = s.
Proof.
  induction s as [|c s IH]; [done|]. simpl contains.
  intros [Hc Hs]%orb_false_iff. rewrite replace_go_cons, Hc, IH; done.
Qed.

End Untouched.

(** * Facts about the columns of a frame *)

Definition required_columns : list str :=
  [lit "colorA"; lit "colorB"; lit "colorC"; lit "DispensePos"].

Section ColumnFacts.

Lemma column_Raise df name e :
  column df name = Raise e ->
  (e = KeyError name /\ name ∉ df.*1)
  \/ (e = AttributeError /\ ~ NoDup df.*1).
Proof.
  induction df as [|[k vs] df IH]; simpl.
  - intros [= <-]. left. split; [done|]. apply not_elem_of_nil.
  - destruct (decide (k = name)) as [->|Hne].
    + destruct (decide (name ∈ df.*1)) as [Hin|Hin]; [|done].
      intros [= <-]. right. split; [done|]. by intros [Hk _]%NoDup_cons.
    + intros [[-> Hin]|[-> Hd]]%IH.
      * left. split; [done|]. rewrite not_elem_of_cons. done.
      * right. split; [done|]. by intros [_ ?]%NoDup_cons.
Qed.

Lemma column_Ok df name vs : column df name = Ok vs -> (name, vs) ∈ df.
Proof.
  induction df as [|[k vs'] df IH]; simpl; [done|].
  destruct (decide (k = name)) as [->|Hne].
  - destruct (decide (name ∈ df.*1)); [done|].
    intros [= ->]. apply list_elem_of_here.
  - intros Hc. apply list_elem_of_further. by apply IH.
Qed.




(** How [bo_data] fails on a frame that lacks a required column: on the
    first required column that is missing, unless a label that is looked up
    before it is in the frame more than once. *)
Definition missing_column_error (df : DataFrame) (e : exn) : Prop :=
  (exists first,
     first ∈ required_columns /\ (first ∉ df.*1) /\ e = KeyError first)
  \/ (e = AttributeError /\ ~ NoDup df.*1).

Lemma bo_data_missing df name :
  name ∈ required_columns -> (name ∉ df.*1) ->
  exists e, bo_data df = Raise e /\ missing_column_error df e.
Proof.
  intros Hreq Hmiss. unfold bo_data, missing_column_error.
  destruct (column df (lit "colorA")) as [a|e] eqn:Ha.
  2:{ exists e. split; [done|].
      apply column_Raise in Ha as [[-> ?]|[-> ?]]; [left|by right].
      eexists. split_and!; [|done..]. unfold required_columns.
      repeat constructor. }
  destruct (column df (lit "colorB")) as [b|e] eqn:Hb.
  2:{ exists e. split; [done|].
      apply column_Raise in Hb as [[-> ?]|[-> ?]]; [left|by right].
      eexists. split_and!; [|done..]. unfold required_columns.
      repeat constructor. }
  destruct (column df (lit "colorC")) as [c|e] eqn:Hc.
  2:{ exists e. split; [done|].
      apply column_Raise in Hc as [[-> ?]|[-> ?]]; [left|by right].
      eexists. split_and!; [|done..]. unfold required_columns.
      repeat constructor. }
  destruct (column df (lit "DispensePos")) as [p|e] eqn:Hp.
  2:{ exists e. split; [done|].
      apply column_Raise in Hp as [[-> ?]|[-> ?]]; [left|by right].
      eexists. split_and!; [|done..]. unfold required_columns.
      repeat constructor. }
  exfalso. apply column_Ok in Ha, Hb, Hc, Hp.
  assert (forall k v, (k, v) ∈ df -> k ∈ df.*1) as Hkey.
  { intros k v Hin. apply list_elem_of_fmap. by exists (k, v). }
  unfold required_columns in Hreq.
  repeat (apply elem_of_cons in Hreq as [->|Hreq]; [eauto|]).
  by apply elem_of_nil in Hreq.
Qed.

Lemma files_prints ms w : files (prints ms w) = files w.
Proof.
  revert w. induction ms as [|m ms IH]; intros w; [done|].
  change (prints (m :: ms) w) with (prints ms (print m w)). by rewrite IH.
Qed.

Lemma read_text_prints ms w path :
  read_text (prints ms w) path = read_text w path.
Proof. unfold read_text. by rewrite files_prints. Qed.

Lemma read_text_Some w path stored :
  files w !! path = Some stored ->
  read_text w path = Some (universal_newlines stored).
Proof. unfold read_text. by intros ->. Qed.

Lemma read_text_None w path :
  read_text w path = None <-> files w !! path = None.
Proof. unfold read_text. by destruct (files w !! path). Qed.

(** A text without a carriage return is read as it is stored. *)
Lemma universal_newlines_id s : CR ∉ s -> universal_newlines s = s.
Proof.
  induction s as [|c s IH]; [done|]. intros H.
  apply not_elem_of_cons in H as [Hc Hs]. simpl.
  apply not_eq_sym, Ascii.eqb_neq in Hc. rewrite Hc. by rewrite IH.
Qed.

Lemma writable_prints ms w : writable (prints ms w) = writable w.
Proof.
  revert w. induction ms as [|m ms IH]; intros w; [done|].
  change (prints (m :: ms) w) with (prints ms (print m w)). by rewrite IH.
Qed.

End ColumnFacts.

(** * Facts about searching, and the iteration number of a path *)

(** The text [path] holds [BO_R] and a digit right after the prefix [pre]. *)
Definition occurs_after (path pre : str) : Prop :=
  exists c rest,
    path = pre ++ lit "BO_R" ++ c :: rest /\ Text.is_digit c = true.

Section SearchFacts.
Import Text.
Context {A : Type} (match_here : str -> option A).

Lemma search_Some_inv s r :
  Re.search match_here s = Some r ->
  exists p1 p2, s = p1 ++ p2 /\ match_here p2 = Some r.
Proof.
  induction s as [|c s IH]; simpl.
  - destruct (match_here []) eqn:Hm; [|done]. intros [= ->]. by exists [], [].
  - destruct (match_here (c :: s)) eqn:Hm.
    + intros [= ->]. by exists [], (c :: s).
    + intros (p1 & p2 & -> & Hp)%IH. by exists (c :: p1), p2.
Qed.

Lemma search_None_intro s :
  (forall p1 p2, s = p1 ++ p2 -> match_here p2 = None) ->
  Re.search match_here s = None.
Proof.
  induction s as [|c s IH]; intros Hall; simpl.
  - by rewrite (Hall [] []).
  - rewrite (Hall [] (c :: s)) by done. apply IH.
    intros p1 p2 ->. by apply (Hall (c :: p1) p2).
Qed.

Lemma search_skip pre s :
  (forall p1 p2, pre = p1 ++ p2 -> p2 <> [] -> match_here (p2 ++ s) = None) ->
  Re.search match_here (pre ++ s) = Re.search match_here s.
Proof.
  induction pre as [|c pre IH]; intros Hall; [done|].
  change ((c :: pre) ++ s) with (c :: pre ++ s). simpl Re.search.
  change (c :: pre ++ s) with ((c :: pre) ++ s).
  rewrite (Hall [] (c :: pre)) by done. apply IH.
  intros p1 p2 -> Hne. by apply (Hall (c :: p1) p2).
Qed.

Lemma search_here s r : match_here s = Some r -> Re.search match_here s = Some r.
Proof. intros Hm. destruct s; simpl; by rewrite Hm. Qed.

End SearchFacts.

Section IterationFacts.
Import Text.

Lemma bo_r_Some s digits :
  bo_r s = Some digits ->
  digits <> [] /\ Forall (fun c => is_digit c = true) digits
  /\ exists rest, s = lit "BO_R" ++ digits ++ rest.
Proof.
  unfold bo_r. destruct (starts_with (lit "BO_R") s) eqn:Hsw; [|done].
  apply starts_with_true in Hsw as [t ->].
  change (drop 4 (lit "BO_R" ++ t)) with t.
  pose proof (span_app is_digit t) as Hsplit.
  pose proof (span_fst_Forall is_digit t) as Hds.
  destruct (span is_digit t) as [[|d ds] rest]; [done|]. simpl in *.
  intros [= <-]. split_and!; [done | done |]. exists rest. by rewrite Hsplit.
Qed.

Lemma bo_r_occurs s digits : bo_r s = Some digits -> occurs_after s [].
Proof.
  intros (Hne & Hds & rest & ->)%bo_r_Some.
  destruct digits as [|d ds]; [done|].
  exists d, (ds ++ rest). split; [done|]. by inversion Hds.
Qed.

Lemma bo_r_run digits rest :
  digits <> [] -> Forall (fun c => is_digit c = true) digits ->
  match rest with [] => True | c :: _ => is_digit c = false end ->
  bo_r (lit "BO_R" ++ digits ++ rest) = Some digits.
Proof.
  intros Hne Hds Hrest. unfold bo_r.
  rewrite starts_with_app.
  change (drop 4 (lit "BO_R" ++ digits ++ rest)) with (digits ++ rest).
  rewrite span_unique by done. by destruct digits.
Qed.

Lemma int_of_digits_nonneg digits :
  Forall (fun c => is_digit c = true) digits -> (0 <= int_of_digits digits)%Z.
Proof.
  unfold int_of_digits. intros Hds.
  assert (forall acc, (0 <= acc)%Z ->
            (0 <= fold_left (fun a c => 10 * a + digit_val c) digits acc)%Z)
    as Hgen; [|by apply Hgen].
  induction Hds as [|d ds Hd _ IH]; intros acc Hacc; [done|].
  simpl. apply IH.
  unfold is_digit in Hd. apply andb_true_iff in Hd as [Hlo _].
  apply Nat.leb_le in Hlo. unfold digit_val. lia.
Qed.

Lemma iteration_of_nonneg path : (0 <= iteration_of path)%Z.
Proof.
  unfold iteration_of.
  destruct (Re.search bo_r path) as [digits|] eqn:Hs; [|done].
  apply search_Some_inv in Hs as (p1 & p2 & _ & Hb).
  apply bo_r_Some in Hb as (_ & Hds & _). by apply int_of_digits_nonneg.
Qed.

Lemma iteration_of_absent path :
  (forall pre, ~ occurs_after path pre) -> iteration_of path = 0%Z.
Proof.
  intros Hno. unfold iteration_of. rewrite search_None_intro; [done|].
  intros p1 p2 ->. destruct (bo_r p2) as [digits|] eqn:Hb; [|done].
  exfalso. apply (Hno p1). apply bo_r_occurs in Hb as (c & rest & Heq & Hc).
  exists c, rest. split; [|done]. f_equal. exact Heq.
Qed.

Lemma iteration_of_first pre digits rest :
  digits <> [] -> Forall (fun c => is_digit c = true) digits ->
  match rest with [] => True | c :: _ => is_digit c = false end ->
  (forall pre', length pre' < length pre ->
                ~ occurs_after (pre ++ lit "BO_R" ++ digits ++ rest) pre') ->
  iteration_of (pre ++ lit "BO_R" ++ digits ++ rest) = int_of_digits digits.
Proof.
  intros Hne Hds Hrest Hfirst. unfold iteration_of.
  rewrite search_skip.
  - by rewrite (search_here _ _ _ (bo_r_run _ _ Hne Hds Hrest)).
  - intros p1 p2 -> Hp2.
    destruct (bo_r (p2 ++ lit "BO_R" ++ digits ++ rest)) as [ds|] eqn:Hb;
      [|done].
    exfalso. apply (Hfirst p1).
    + rewrite length_app. destruct p2; [done|]. simpl. lia.
    + apply bo_r_occurs in Hb as (c & rest' & Heq & Hc).
      exists c, rest'. split; [|done]. rewrite <- app_assoc. f_equal. exact Heq.
Qed.

Lemma search_None_absent path :
  Re.search bo_r path = None -> forall pre, ~ occurs_after path pre.
Proof.
  intros Hs pre (c & rest & -> & Hc).
  induction pre as [|a pre IH].
  - simpl in Hs. unfold bo_r at 1 in Hs. simpl in Hs. rewrite Hc in Hs.
    by destruct (span is_digit rest).
  - apply IH. simpl in Hs. by destruct (bo_r (a :: pre ++ _)).
Qed.

End IterationFacts.

(** * Example inputs *)

(** A literal in which a backquote stands for a double quote. *)
Definition quoted (s : string) : str :=
  map (fun c => if Ascii.eqb c "`" then Text.dquote else c) (lit s).

(** A base protocol in the shape the generator expects. *)
Definition example_base : str := lit "from opentrons import protocol_api

metadata = {
    'protocolName': 'Color Liquid Mixing - Bayesian Optimization',
    'apiLevel': '2.13'
}

def run(protocol):
    # BO ITERATION DATA - WILL BE REPLACED DYNAMICALLY
    BO_DATA = {'colorA': [], 'colorB': [], 'colorC': [], 'DispensePos': []}
    plate = protocol.load_labware('corning_96_wellplate_360ul_flat', '1')
".

(** The batch of the scenario: two experiments. *)
Definition example_batch : list (str * list cell) :=
  [(lit "colorA", [CFloat (lit "1.0"); CFloat (lit "2.0")]);
   (lit "colorB", [CFloat (lit "3.0"); CFloat (lit "4.0")]);
   (lit "colorC", [CFloat (lit "5.0"); CFloat (lit "6.0")]);
   (lit "DispensePos", [CStr (lit "A1"); CStr (lit "A2")])].

(** What the generator makes of [example_base] for iteration 2. *)
Definition example_patched : str := quoted "from opentrons import protocol_api

metadata = {
    'protocolName': 'Color Liquid Mixing - BO Iteration 2',
    'apiLevel': '2.13'
}

def run(protocol):
    # BO ITERATION DATA - BO2
    BO_DATA = {
        
        `colorA`: [
                1.0,
                2.0
        ],
        `colorB`: [
                3.0,
                4.0
        ],
        `colorC`: [
                5.0,
                6.0
        ],
        `DispensePos`: [
                `A1`,
                `A2`
        ]

    }
    plate = protocol.load_labware('corning_96_wellplate_360ul_flat', '1')
".

(** The base text of the scenario as the specification words it: another
    marker line, an empty literal and another protocol name. *)
Definition scenario_base : str := lit "metadata = {
    'protocolName': 'Base',
}

def run(protocol):
    # ITERATION DATA - WILL BE REPLACED
    BO_DATA = {}
    protocol.comment('ready')
".

Definition scenario_data : str :=
  quoted "BO_DATA = {colorA: [1.0, 2.0], colorB: [3.0, 4.0], colorC: [5.0, 6.0], DispensePos: [`A1`,`A2`]}".

Definition scenario_name : str := lit "'protocolName': 'Iteration 2',".

(** * The claims *)

(** C1, as stated: on the base text of the scenario the patch finds neither
    its marker nor its protocol name and returns the text as it was; the
    data literal and the name of the scenario are not in the output. *)
Lemma scenario_base_not_patched :
  updated_content scenario_base example_batch 2 = Ok scenario_base
  /\ Text.contains scenario_data scenario_base = false
  /\ Text.contains scenario_name scenario_base = false.
Proof. by vm_compute. Qed.

(** C1, amended: on a base text with the marker line
    [# BO ITERATION DATA - WILL BE REPLACED DYNAMICALLY], a non-empty literal
    after [BO_DATA = ] and the protocol name
    ['Color Liquid Mixing - Bayesian Optimization'], the batch of the
    scenario and iteration 2 give the marker line [# BO ITERATION DATA - BO2],
    the literal as [json.dumps] renders it with an indent of 8 and quoted
    keys, and the name ['Color Liquid Mixing - BO Iteration 2']; every other
    line is unchanged. *)
Theorem example_base_patched :
  updated_content example_base example_batch 2 = Ok example_patched.
Proof. by vm_compute. Qed.

(** A world for the examples: the table of the scenario under
    [./data/BO_R2.csv], a base protocol, every path writable. *)
Definition example_csv_path : str := lit "./data/BO_R2.csv".

Definition example_csv : str := lit "colorA,colorB,colorC,DispensePos
1.0,3.0,5.0,A1
2.0,4.0,6.0,A2
".

Definition example_parse (text : str) : option DataFrame :=
  if decide (text = example_csv) then Some example_batch else None.

Definition example_world (base : str) : world :=
  World (<[base_protocol_path := base]> {[example_csv_path := example_csv]})
        (fun _ => true) [].

(** A base protocol whose literal is opened and never closed. *)
Definition unbalanced_base : str := lit "metadata = [
    'protocolName': 'Color Liquid Mixing - Bayesian Optimization',
]

def run(protocol):
    # BO ITERATION DATA - WILL BE REPLACED DYNAMICALLY
    BO_DATA = {'colorA': [], 'colorB': [], 'colorC': [], 'DispensePos': []
    protocol.comment('ready')
".

Definition unbalanced_written : str := lit "metadata = [
    'protocolName': 'Color Liquid Mixing - BO Iteration 2',
]

def run(protocol):
    # BO ITERATION DATA - WILL BE REPLACED DYNAMICALLY
    BO_DATA = {'colorA': [], 'colorB': [], 'colorC': [], 'DispensePos': []
    protocol.comment('ready')
".

Definition example_output_path : str := lit "./color_mixing_BO2.py".

(** C2, as stated: with a base text whose literal is never closed the
    generator does not fail; it returns the output path and writes the text,
    unpatched but for the protocol name, to a path that held nothing. *)
Lemma unbalanced_base_is_written :
  let w := example_world unbalanced_base in
  let out := generate_protocol_from_csv example_parse example_csv_path 2 (lit ".") w in
  Re.search pattern unbalanced_base = None
  /\ files w !! example_output_path = None
  /\ out.1 = Ok (Some example_output_path)
  /\ files out.2 !! example_output_path = Some unbalanced_written.
Proof. by vm_compute. Qed.

(** C2, amended: when the pattern matches nowhere in the base text as it
    is read (no marker, an empty literal, or a literal that is never
    closed), the generator does not report a malformed template.  When the
    data section is a replacement text that [re.sub] accepts, the data
    substitution leaves the text as it is, the protocol name is still
    replaced, and the result is written to the output path, which the
    generator returns.  When the data section is not such a text, as with a
    character of code 127 or more in a string value, the error of [re.sub]
    leaves the generator and nothing is written.  This holds for a table
    with the four columns, a readable base protocol and a writable output
    path. *)
Theorem no_region_still_written parse_csv csv_file_path n output_dir w df d base :
  read_csv parse_csv w csv_file_path = CsvFrame df ->
  bo_data df = Ok d ->
  read_text w base_protocol_path = Some base ->
  Re.search pattern base = None ->
  writable w (path_join output_dir (protocol_filename n)) = true ->
  let out := generate_protocol_from_csv parse_csv csv_file_path n output_dir w in
  let protocol_path := path_join output_dir (protocol_filename n) in
  (Re.parse_template (data_section d n) <> None ->
   out.1 = Ok (Some protocol_path)
   /\ files out.2
      = <[protocol_path := Text.replace protocol_name (iteration_name n) base]>
          (files w))
  /\ (Re.parse_template (data_section d n) = None ->
      out.1 = Raise TemplateError /\ files out.2 = files w).
Proof.
  intros Hread Hd Hbase Hsearch Hw. unfold generate_protocol_from_csv.
  rewrite Hread, Hd, read_text_prints, Hbase, writable_prints, Hw.
  unfold updated_content, Re.sub.
  destruct (Re.parse_template (data_section d n)) as [tmpl|].
  - split; [|done]. intros _.
    by rewrite (search_None_sub_go tmpl base Hsearch).
  - split; [done|]. intros _. split; [done|]. apply files_prints.
Qed.

Lemma no_region_still_written_witness :
  let w := example_world unbalanced_base in
  let out := generate_protocol_from_csv example_parse example_csv_path 2 (lit ".") w in
  Re.search pattern unbalanced_base = None
  /\ out.1 = Ok (Some (path_join (lit ".") (protocol_filename 2)))
  /\ files out.2
     = <[path_join (lit ".") (protocol_filename 2)
         := Text.replace protocol_name (iteration_name 2) unbalanced_base]>
         (files w).
Proof.
  split; [by vm_compute|].
  apply (no_region_still_written example_parse example_csv_path 2 (lit ".")
           (example_world unbalanced_base) example_batch example_batch
           unbalanced_base); by vm_compute.
Defined.

(** Following the specification: the length of the text from an open brace
    to the close brace that balances it; [depth] counts the braces that are
    open. *)
Fixpoint balanced_go (depth : nat) (s : str) : option nat :=
  match s with
  | [] => None
  | c :: s' =>
      if Ascii.eqb c "{" then S <$> balanced_go (S depth) s'
      else if Ascii.eqb c "}" then
        match depth with
        | 0 => None
        | 1 => Some 1
        | S d => S <$> balanced_go d s'
        end
      else S <$> balanced_go depth s'
  end.

(** Following the specification: the region at the head of [s], from the
    marker to the close brace that balances the open brace of the literal. *)
Definition balanced_region (s : str) : option nat :=
  if Text.starts_with marker s
  then (fun n => length marker - 1 + n)
         <$> balanced_go 0 (drop (length marker - 1) s)
  else None.

(** A base protocol whose literal holds a nested mapping. *)
Definition nested_region : str := lit "    # BO ITERATION DATA - WILL BE REPLACED DYNAMICALLY
    BO_DATA = {'limits': {'max': 300}, 'colorA': [], 'DispensePos': []}
    protocol.comment('ready')
".

Definition nested_base : str := lit "def run(protocol):
" ++ nested_region.

Definition nested_patched : str := quoted "def run(protocol):
    # BO ITERATION DATA - BO2
    BO_DATA = {
        
        `colorA`: [
                1.0,
                2.0
        ],
        `colorB`: [
                3.0,
                4.0
        ],
        `colorC`: [
                5.0,
                6.0
        ],
        `DispensePos`: [
                `A1`,
                `A2`
        ]

    }, 'colorA': [], 'DispensePos': []}
    protocol.comment('ready')
".

(** C3, as stated: on a literal with a nested mapping the pattern stops at
    the inner close brace, 34 characters before the brace that balances the
    literal, and the rest of the old literal stays in the patched text. *)
Lemma nested_literal_truncated :
  pattern nested_region = Some 92
  /\ balanced_region nested_region = Some 126
  /\ updated_content nested_base example_batch 2 = Ok nested_patched.
Proof. by vm_compute. Qed.

(** C3, amended: the region runs from the marker to the first close brace
    after the open brace of the literal, with at least one character in
    between; what follows that brace, the rest of a nested literal included,
    is outside the region and is treated as ordinary text. *)
Theorem region_ends_at_first_close_brace repl tmpl body rest :
  Re.parse_template repl = Some tmpl ->
  body <> [] -> Forall (fun c => c <> "}"%char) body ->
  let region := marker ++ body ++ ["}"%char] in
  pattern (region ++ rest) = Some (length region)
  /\ Re.sub pattern repl (region ++ rest)
     = Ok (Re.expand tmpl region ++ Re.sub_go pattern tmpl 0 rest).
Proof.
  intros Htmpl Hne Hbody region. subst region.
  assert ((marker ++ body ++ ["}"%char]) ++ rest
          = marker ++ body ++ "}"%char :: rest) as ->
    by (by rewrite <- !app_assoc).
  split.
  - rewrite (pattern_region body rest Hne Hbody), !length_app.
    f_equal; simpl; lia.
  - unfold Re.sub. rewrite Htmpl. f_equal. by apply sub_go_region.
Qed.

Lemma region_ends_at_first_close_brace_witness :
  let region := marker ++ lit "'limits': {'max': 300" ++ ["}"%char] in
  let rest := lit ", 'colorA': []}" in
  exists tmpl,
    Re.parse_template (data_section example_batch 2) = Some tmpl
    /\ pattern (region ++ rest) = Some (length region)
    /\ Re.sub pattern (data_section example_batch 2) (region ++ rest)
       = Ok (Re.expand tmpl region ++ Re.sub_go pattern tmpl 0 rest).
Proof.
  eexists. split; [by vm_compute|].
  apply (region_ends_at_first_close_brace (data_section example_batch 2) _
           (lit "'limits': {'max': 300") (lit ", 'colorA': []}")).
  - by vm_compute.
  - done.
  - apply (bool_decide_unpack _). by vm_compute.
Defined.






(** A base text that holds the protocol name a second time, in a comment
    after the data region. *)
Definition later_name_base : str := lit "metadata = {
    'protocolName': 'Color Liquid Mixing - Bayesian Optimization',
}

def run(protocol):
    # BO ITERATION DATA - WILL BE REPLACED DYNAMICALLY
    BO_DATA = {'colorA': []}
    # was 'protocolName': 'Color Liquid Mixing - Bayesian Optimization',
    protocol.comment('ready')
".

(** The part of [later_name_base] up to the end of the data region. *)
Definition later_name_head : str := lit "metadata = {
    'protocolName': 'Color Liquid Mixing - Bayesian Optimization',
}

def run(protocol):
    # BO ITERATION DATA - WILL BE REPLACED DYNAMICALLY
    BO_DATA = {'colorA': []}
".

Definition later_name_line : str :=
  lit "    # was 'protocolName': 'Color Liquid Mixing - Bayesian Optimization',".

(** C5, as stated: a line of the base text that lies after the data region
    and after the protocol name of the metadata, so outside both, is not a
    line of the patched text when it holds the protocol name again: the
    code rewrites it. *)
Lemma later_line_rewritten :
  exists text,
    updated_content later_name_base example_batch 2 = Ok text
    /\ later_name_base
       = later_name_head ++ later_name_line
         ++ [LF] ++ lit "    protocol.comment('ready')" ++ [LF]
    /\ (exists n, Re.search pattern later_name_head = Some n)
    /\ Re.search pattern
         (later_name_line ++ [LF] ++ lit "    protocol.comment('ready')"
          ++ [LF]) = None
    /\ Text.contains protocol_name later_name_head = true
    /\ (later_name_line ∈ lines later_name_base)
    /\ (later_name_line ∉ lines text)
    /\ (lit "    # was 'protocolName': 'Color Liquid Mixing - BO Iteration 2',"
         ∈ lines text).
Proof.
  eexists. split; [by vm_compute|].
  split_and!; try by vm_compute.
  - eexists. by vm_compute.
  - apply (bool_decide_unpack _). by vm_compute.
  - apply (bool_decide_unpack _). by vm_compute.
  - apply (bool_decide_unpack _). by vm_compute.
Qed.

(** C5, amended: every line of the base text that lies outside every region
    matched by the pattern and outside every occurrence of the protocol name
    is a line of the patched text, unchanged and in the same order.  A
    region runs from its marker to the first close brace after it, and every
    region and every occurrence counts, not only the first. *)
Theorem updated_content_keeps_clear_lines protocol_content d n text :
  updated_content protocol_content d n = Ok text ->
  clear_lines protocol_content `sublist_of` lines text.
Proof.
  intros Hrw%updated_content_Rw.
  apply (clear_go_sublist _ _ Hrw). by intros ? [= <-].
Qed.

Lemma updated_content_keeps_clear_lines_witness :
  updated_content example_base example_batch 2 = Ok example_patched
  /\ clear_lines example_base
     = [lit "from opentrons import protocol_api"; []; lit "metadata = {";
        lit "    'apiLevel': '2.13'"; lit "}"; []; lit "def run(protocol):";
        lit "    plate = protocol.load_labware('corning_96_wellplate_360ul_flat', '1')";
        []]
  /\ clear_lines example_base `sublist_of` lines example_patched.
Proof.
  split; [by vm_compute|]. split; [by vm_compute|].
  apply (updated_content_keeps_clear_lines example_base example_batch 2).
  by vm_compute.
Defined.







(** C7: a frame that lacks one of the four required columns makes the
    generators fail with an exception and write nothing.  The exception is
    the error for a missing column, [KeyError], the schema error of the
    specification, raised for the first required column that is missing;
    only when a label looked up before that column is in the frame more than
    once is it the [AttributeError] of that lookup.
    [update_csv_data_handler] catches the exception and returns [None].  In
    each case the files are left as they were. *)
Theorem missing_column_no_artifact parse_csv csv_file_path df name n output_dir w :
  name ∈ required_columns -> (name ∉ df.*1) ->
  exists e,
    missing_column_error df e
    /\ (NoDup df.*1 ->
        exists first,
          first ∈ required_columns /\ (first ∉ df.*1) /\ e = KeyError first)
    /\ generate_protocol_from_dataframe df n output_dir w = (Raise e, w)
    /\ (read_csv parse_csv w csv_file_path = CsvFrame df ->
        (exists w',
           generate_protocol_from_csv parse_csv csv_file_path n output_dir w
           = (Raise e, w')
           /\ files w' = files w)
        /\ exists w',
             update_csv_data_handler parse_csv csv_file_path w = (None, w')
             /\ files w' = files w).
Proof.
  intros Hreq Hmiss.
  destruct (bo_data_missing df name Hreq Hmiss) as (e & Hd & He).
  exists e. split_and!; [done | | |].
  - intros Hnd. by destruct He as [?|[_ ?]].
  - unfold generate_protocol_from_dataframe. by rewrite Hd.
  - intros Hread. split.
    + eexists. unfold generate_protocol_from_csv. rewrite Hread, Hd.
      split; [done|]. apply files_prints.
    + eexists. unfold update_csv_data_handler, generate_protocol_from_csv.
      rewrite Hread, Hd. split; [done|]. reflexivity.
Qed.

(** A frame without the column colorC. *)
Definition frame_without_colorC : DataFrame :=
  [(lit "colorA", [CFloat (lit "1.0")]); (lit "colorB", [CFloat (lit "3.0")]);
   (lit "DispensePos", [CStr (lit "A1")])].

Lemma missing_column_no_artifact_witness :
  lit "colorC" ∈ required_columns
  /\ (lit "colorC" ∉ frame_without_colorC.*1)
  /\ exists e,
       missing_column_error frame_without_colorC e
       /\ (NoDup frame_without_colorC.*1 ->
           exists first,
             first ∈ required_columns /\ (first ∉ frame_without_colorC.*1)
             /\ e = KeyError first)
       /\ generate_protocol_from_dataframe frame_without_colorC 2 (lit ".")
            (example_world example_base)
          = (Raise e, example_world example_base)
       /\ (read_csv (fun _ => Some frame_without_colorC)
             (example_world example_base) example_csv_path
           = CsvFrame frame_without_colorC ->
           (exists w',
              generate_protocol_from_csv (fun _ => Some frame_without_colorC)
                example_csv_path 2 (lit ".") (example_world example_base)
              = (Raise e, w')
              /\ files w' = files (example_world example_base))
           /\ exists w',
                update_csv_data_handler (fun _ => Some frame_without_colorC)
                  example_csv_path (example_world example_base)
                = (None, w')
                /\ files w' = files (example_world example_base)).
Proof.
  assert (lit "colorC" ∈ required_columns) as Hreq
    by (apply (bool_decide_unpack _); by vm_compute).
  assert (lit "colorC" ∉ frame_without_colorC.*1) as Hmiss
    by (apply (bool_decide_unpack _); by vm_compute).
  split; [done|]. split; [done|].
  exact (missing_column_no_artifact (fun _ => Some frame_without_colorC)
           example_csv_path frame_without_colorC (lit "colorC") 2 (lit ".")
           (example_world example_base) Hreq Hmiss).
Defined.

(** A base text that holds the protocol name twice and no data region. *)
Definition twice_named_base : str :=
  protocol_name ++ [LF] ++ lit "# " ++ protocol_name ++ [LF].

(** A base text that holds a data region and no protocol name. *)
Definition unnamed_base : str := lit "metadata = {
    'protocolName': 'Base',
}

def run(protocol):
    # BO ITERATION DATA - WILL BE REPLACED DYNAMICALLY
    BO_DATA = {'colorA': []}
".

Definition unnamed_patched : str := quoted "metadata = {
    'protocolName': 'Base',
}

def run(protocol):
    # BO ITERATION DATA - BO2
    BO_DATA = {
        
        `colorA`: [
                1.0,
                2.0
        ],
        `colorB`: [
                3.0,
                4.0
        ],
        `colorC`: [
                5.0,
                6.0
        ],
        `DispensePos`: [
                `A1`,
                `A2`
        ]

    }
".

(** C8, as stated: in a base text that holds the protocol name twice both
    occurrences are replaced, none is left. *)
Lemma both_names_replaced :
  updated_content twice_named_base example_batch 2
  = Ok (iteration_name 2 ++ [LF] ++ lit "# " ++ iteration_name 2 ++ [LF])
  /\ Text.contains protocol_name twice_named_base = true
  /\ Text.contains protocol_name
       (iteration_name 2 ++ [LF] ++ lit "# " ++ iteration_name 2 ++ [LF])
     = false.
Proof. by vm_compute. Qed.

(** C8, amended: the relabel step replaces every occurrence of the
    protocol name, from left to right: the text before the first occurrence
    is kept, the occurrence becomes the name of the iteration, and the rest
    is treated in the same way.  A text without the protocol name is
    returned as it is, and each of the two generators then writes the text,
    returns the output path and prints what it prints for every generated
    protocol; nothing tells the caller that the name was not replaced.  The
    base protocol is the text as it is read, with its line ends read as
    [\n]. *)
Theorem relabel_replaces_every_occurrence (n : Z) :
  (forall s t,
     none_in (Text.starts_with protocol_name) s (protocol_name ++ t) = true ->
     Text.replace protocol_name (iteration_name n) (s ++ protocol_name ++ t)
     = s ++ iteration_name n
         ++ Text.replace protocol_name (iteration_name n) t)
  /\ (forall s,
        Text.contains protocol_name s = false ->
        Text.replace protocol_name (iteration_name n) s = s)
  /\ (forall parse_csv csv_file_path df d output_dir w protocol_content text,
        bo_data df = Ok d ->
        read_text w base_protocol_path = Some protocol_content ->
        Re.sub pattern (data_section d n) protocol_content = Ok text ->
        Text.contains protocol_name text = false ->
        let protocol_path := path_join output_dir (protocol_filename n) in
        writable w protocol_path = true ->
        let from_dataframe :=
          generate_protocol_from_dataframe df n output_dir w in
        (from_dataframe.1 = Ok (Some protocol_path)
         /\ files from_dataframe.2 = <[protocol_path := text]> (files w)
         /\ exists experiments,
              stdout from_dataframe.2
              = stdout w ++ [MProcessingDataFrame n; MShape df;
                             MExperiments experiments;
                             MGenerated protocol_path])
        /\ (read_csv parse_csv w csv_file_path = CsvFrame df ->
            let from_csv :=
              generate_protocol_from_csv parse_csv csv_file_path n
                output_dir w in
            from_csv.1 = Ok (Some protocol_path)
            /\ files from_csv.2 = <[protocol_path := text]> (files w)
            /\ stdout from_csv.2
               = stdout w ++ [MLoaded csv_file_path; MShape df; MColumns df;
                              MGenerated protocol_path])).
Proof.
  split_and!.
  - intros s t Hs. unfold Text.replace. destruct protocol_name eqn:Hp; [done|].
    rewrite <- Hp in *.
    rewrite (replace_go_none_in _ _ _ _ Hs), replace_go_here; [done|].
    by rewrite Hp.
  - intros s Hs. unfold Text.replace. destruct protocol_name eqn:Hp; [done|].
    rewrite <- Hp in *. by apply replace_go_absent.
  - intros parse_csv csv_file_path df d output_dir w protocol_content text
      Hd Hbase Hsub Hno protocol_path Hw from_dataframe.
    assert (Text.replace protocol_name (iteration_name n) text = text)
      as Hsame.
    { unfold Text.replace. destruct protocol_name eqn:Hp; [done|].
      rewrite <- Hp in *. by apply replace_go_absent. }
    split.
    + subst from_dataframe. unfold generate_protocol_from_dataframe.
      rewrite Hd. cbn zeta. rewrite read_text_prints, Hbase.
      unfold updated_content. rewrite Hsub. fold protocol_path.
      rewrite writable_prints, Hw, Hsame.
      split_and!; [done | done |]. eexists. simpl. by rewrite <- !app_assoc.
    + intros Hread from_csv. subst from_csv.
      unfold generate_protocol_from_csv. rewrite Hread, Hd. cbn zeta.
      rewrite read_text_prints, Hbase. unfold updated_content.
      rewrite Hsub. fold protocol_path. rewrite writable_prints, Hw, Hsame.
      split_and!; [done | done |]. simpl. by rewrite <- !app_assoc.
Qed.

Lemma relabel_replaces_every_occurrence_witness :
  Text.replace protocol_name (iteration_name 2) twice_named_base
  = iteration_name 2
      ++ Text.replace protocol_name (iteration_name 2)
           ([LF] ++ lit "# " ++ protocol_name ++ [LF])
  /\ Text.replace protocol_name (iteration_name 2) unnamed_base = unnamed_base
  /\ let from_dataframe :=
       generate_protocol_from_dataframe example_batch 2 (lit ".")
         (example_world unnamed_base) in
     let from_csv :=
       generate_protocol_from_csv example_parse example_csv_path 2 (lit ".")
         (example_world unnamed_base) in
     (from_dataframe.1 = Ok (Some example_output_path)
      /\ files from_dataframe.2
         = <[example_output_path := unnamed_patched]>
             (files (example_world unnamed_base))
      /\ exists experiments,
           stdout from_dataframe.2
           = stdout (example_world unnamed_base)
             ++ [MProcessingDataFrame 2; MShape example_batch;
                 MExperiments experiments; MGenerated example_output_path])
     /\ from_csv.1 = Ok (Some example_output_path)
     /\ files from_csv.2
        = <[example_output_path := unnamed_patched]>
            (files (example_world unnamed_base))
     /\ stdout from_csv.2
        = stdout (example_world unnamed_base)
          ++ [MLoaded example_csv_path; MShape example_batch;
              MColumns example_batch; MGenerated example_output_path].
Proof.
  destruct (relabel_replaces_every_occurrence 2) as (Hevery & Habsent & Hquiet).
  split_and!.
  - apply (Hevery [] ([LF] ++ lit "# " ++ protocol_name ++ [LF])).
    reflexivity.
  - apply Habsent. by vm_compute.
  - destruct (Hquiet example_parse example_csv_path example_batch
                example_batch (lit ".") (example_world unnamed_base)
                unnamed_base unnamed_patched) as [Hdf Hcsv];
      [by vm_compute..|].
    split; [exact Hdf|]. apply Hcsv. by vm_compute.
Defined.

(** C9: the iteration number that [update_csv_data_handler] takes from a
    path is never negative; it is 0 when [BO_R] with a digit after it occurs
    nowhere in the path, and otherwise the number written by the digits that
    follow the first such occurrence; a protocol the handler reports is the
    file of that iteration in the current directory. *)
Theorem iteration_from_path (csv_file_path : str) :
  (0 <= iteration_of csv_file_path)%Z
  /\ ((forall pre, ~ occurs_after csv_file_path pre) ->
      iteration_of csv_file_path = 0%Z)
  /\ (forall pre digits rest,
        csv_file_path = pre ++ lit "BO_R" ++ digits ++ rest ->
        digits <> [] -> Forall (fun c => Text.is_digit c = true) digits ->
        match rest with [] => True | c :: _ => Text.is_digit c = false end ->
        (forall pre', length pre' < length pre ->
                      ~ occurs_after csv_file_path pre') ->
        iteration_of csv_file_path = Text.int_of_digits digits)
  /\ (forall parse_csv w protocol_path w',
        update_csv_data_handler parse_csv csv_file_path w
        = (Some protocol_path, w') ->
        protocol_path
        = path_join (lit ".")
            (protocol_filename (iteration_of csv_file_path))).
Proof.
  split_and!.
  - apply iteration_of_nonneg.
  - apply iteration_of_absent.
  - intros pre digits rest -> Hne Hds Hrest Hfirst.
    by apply iteration_of_first.
  - intros parse_csv w protocol_path w'.
    unfold update_csv_data_handler, generate_protocol_from_csv.
    repeat case_match; by intros; simplify_eq.
Qed.

Definition numbered_csv_path : str := lit "./data/BO_R12_BO_R7.csv".

Definition unnumbered_csv_path : str := lit "./data/BO_Rx_results.csv".

Lemma iteration_from_path_witness :
  ((0 <= iteration_of numbered_csv_path)%Z
   /\ iteration_of numbered_csv_path = 12%Z)
  /\ iteration_of unnumbered_csv_path = 0%Z
  /\ lit "./color_mixing_BO2.py"
     = path_join (lit ".") (protocol_filename (iteration_of example_csv_path)).
Proof.
  split_and!.
  - apply (iteration_from_path numbered_csv_path).
  - destruct (iteration_from_path numbered_csv_path) as (_ & _ & Hfirst & _).
    apply (Hfirst (lit "./data/") (lit "12") (lit "_BO_R7.csv")).
    + reflexivity.
    + done.
    + by repeat constructor.
    + reflexivity.
    + intros pre' Hlen (c & rest & Heq & Hc).
      do 7 (destruct pre' as [|? pre']; [by simplify_eq/=|]).
      simpl in Hlen. lia.
  - destruct (iteration_from_path unnumbered_csv_path) as (_ & Habsent & _).
    apply Habsent. by apply search_None_absent.
  - destruct (iteration_from_path example_csv_path) as (_ & _ & _ & Hfile).
    apply (Hfile example_parse (example_world example_base) _
             (update_csv_data_handler example_parse example_csv_path
                (example_world example_base)).2).
    by vm_compute.
Defined.

(** C10: when the file at the path parses to the frame [df], the generator
    that reads the file and the generator that is handed [df] return the
    same value or raise the same exception, and leave the same files behind:
    the text written to the output path is the same, character by
    character, the patch of the base protocol, as it is read, with the
    columns of [df].  Only what they print differs. *)
Theorem generators_agree parse_csv csv_file_path df n output_dir w :
  read_csv parse_csv w csv_file_path = CsvFrame df ->
  let from_csv :=
    generate_protocol_from_csv parse_csv csv_file_path n output_dir w in
  let from_dataframe := generate_protocol_from_dataframe df n output_dir w in
  from_csv.1 = from_dataframe.1
  /\ files from_csv.2 = files from_dataframe.2
  /\ forall protocol_path,
       from_csv.1 = Ok (Some protocol_path) ->
       exists protocol_content d text,
         read_text w base_protocol_path = Some protocol_content
         /\ bo_data df = Ok d
         /\ updated_content protocol_content d n = Ok text
         /\ files from_csv.2 !! protocol_path = Some text
         /\ files from_dataframe.2 !! protocol_path = Some text.
Proof.
  intros Hread from_csv from_dataframe. subst from_csv from_dataframe.
  unfold generate_protocol_from_csv, generate_protocol_from_dataframe.
  rewrite Hread. destruct (bo_data df) as [d|e]; [|done].
  cbn zeta. rewrite !read_text_prints, !writable_prints.
  destruct (read_text w base_protocol_path) as [protocol_content|]; [|done].
  destruct (updated_content protocol_content d n) as [text|e] eqn:Htext;
    [|done].
  destruct (writable w (path_join output_dir (protocol_filename n))); [|done].
  split_and!; [done | done |].
  intros protocol_path [= <-]. exists protocol_content, d, text.
  split_and!; [done..| |]; cbn; apply lookup_insert_eq.
Qed.

Lemma generators_agree_witness :
  let from_csv :=
    generate_protocol_from_csv example_parse example_csv_path 2 (lit ".")
      (example_world example_base) in
  let from_dataframe :=
    generate_protocol_from_dataframe example_batch 2 (lit ".")
      (example_world example_base) in
  from_csv.1 = from_dataframe.1
  /\ files from_csv.2 = files from_dataframe.2
  /\ forall protocol_path,
       from_csv.1 = Ok (Some protocol_path) ->
       exists protocol_content d text,
         read_text (example_world example_base) base_protocol_path
         = Some protocol_content
         /\ bo_data example_batch = Ok d
         /\ updated_content protocol_content d 2 = Ok text
         /\ files from_csv.2 !! protocol_path = Some text
         /\ files from_dataframe.2 !! protocol_path = Some text.
Proof.
  apply (generators_agree example_parse example_csv_path example_batch 2
           (lit ".") (example_world example_base)).
  by vm_compute.
Defined.

(** * Numbers in names: [str] and [int] *)

Section NumberFacts.
Import Text.

Lemma fold_digits_acc (d : Decimal.uint) (acc : positive) :
  fold_left (fun a c => 10 * a + digit_val c)%Z
    (lit (NilEmpty.string_of_uint d)) (Z.pos acc)
  = Z.pos (Pos.of_uint_acc d acc).
Proof.
  revert acc. induction d; intros acc; [done|..];
    cbn [NilEmpty.string_of_uint lit list_ascii_of_string fold_left
         Pos.of_uint_acc];
    rewrite <- IHd; f_equal;
    match goal with
    | |- context [digit_val ?c] =>
        let v := eval vm_compute in (digit_val c) in
        change (digit_val c) with v
    end; lia.
Qed.

Lemma fold_digits (d : Decimal.uint) :
  int_of_digits (lit (NilEmpty.string_of_uint d)) = Z.of_uint d.
Proof.
  unfold int_of_digits, Z.of_uint.
  induction d; [done|..];
    cbn [NilEmpty.string_of_uint lit list_ascii_of_string fold_left
         Pos.of_uint];
    first [ exact IHd | apply (fold_digits_acc d) ].
Qed.

Lemma uint_digits (d : Decimal.uint) :
  Forall (fun c => is_digit c = true) (lit (NilEmpty.string_of_uint d)).
Proof. induction d; simpl; by constructor. Qed.

(** [str(n)] of a number that is not negative is a run of digits, not
    empty, and [int] reads the number back from it. *)
Lemma str_of_int_digits (n : Z) :
  (0 <= n)%Z ->
  str_of_int n <> []
  /\ Forall (fun c => is_digit c = true) (str_of_int n)
  /\ int_of_digits (str_of_int n) = n.
Proof.
  intros Hn. unfold str_of_int. destruct n as [|p|p]; [by repeat constructor| |lia].
  cbn [Z.to_int NilZero.string_of_int].
  pose proof (DecimalPos.Unsigned.of_to p) as Hp.
  assert (NilZero.string_of_uint (Pos.to_uint p)
          = NilEmpty.string_of_uint (Pos.to_uint p)) as ->.
  { by destruct (Pos.to_uint p). }
  split_and!.
  - by destruct (Pos.to_uint p).
  - apply uint_digits.
  - rewrite fold_digits. unfold Z.of_uint. by rewrite Hp.
Qed.

Lemma lit_inj (a b : string) : lit a = lit b -> a = b.
Proof.
  intros H. rewrite <- (string_of_list_ascii_of_string a),
    <- (string_of_list_ascii_of_string b). unfold lit in H. by rewrite H.
Qed.

Lemma str_of_int_inj (n m : Z) : str_of_int n = str_of_int m -> n = m.
Proof.
  unfold str_of_int. intros H%lit_inj.
  assert (forall z, Z.to_int z <> Decimal.Pos Decimal.Nil
                    /\ Z.to_int z <> Decimal.Neg Decimal.Nil) as Hnil.
  { intros [|p|p]; simpl; split; try done; intros [= E];
      pose proof (DecimalPos.Unsigned.of_to p) as Hp; by rewrite E in Hp. }
  apply DecimalZ.to_int_inj.
  destruct (Hnil n) as [? ?], (Hnil m) as [? ?].
  assert (Some (Z.to_int n) = Some (Z.to_int m)) as [= ->]; [|done].
  rewrite <- (NilZero.isi (Z.to_int n)), <- (NilZero.isi (Z.to_int m)) by done.
  by rewrite H.
Qed.

End NumberFacts.

(** * What the generators write *)

(** The data that a generator takes from a frame: the four columns, when
    the frame has them. *)
Definition frame_data (df : DataFrame) : option (list (str * list cell)) :=
  match bo_data df with
  | Ok d => Some d
  | Raise _ => None
  end.

(** The outcome [out] of a run that started in [w] with the data [data] and
    was to write the patched text to [protocol_path]: the path is returned
    and the file holds the patch of the base protocol, as it is read, with
    that data, or no path is returned and the files are as they were. *)
Definition one_file_or_none (w : world) (n : Z) (protocol_path : str)
    (data : option (list (str * list cell)))
    (out : result (option str) * world) : Prop :=
  (exists d protocol_content text,
     data = Some d
     /\ read_text w base_protocol_path = Some protocol_content
     /\ updated_content protocol_content d n = Ok text
     /\ writable w protocol_path = true
     /\ out.1 = Ok (Some protocol_path)
     /\ files out.2 = <[protocol_path := text]> (files w))
  \/ ((forall p, out.1 <> Ok (Some p)) /\ files out.2 = files w).

Section GeneratorFacts.
Import Text.
Variable parse_csv : str -> option DataFrame.

(** The data that [generate_protocol_from_csv] takes from the table at a
    path: the four columns of the frame that [pd.read_csv] gives. *)
Definition table_data (w : world) (csv_file_path : str)
  : option (list (str * list cell)) :=
  match read_csv parse_csv w csv_file_path with
  | CsvFrame df => frame_data df
  | CsvNotFound | CsvUnreadable => None
  end.

Lemma generate_protocol_from_csv_outcome csv_file_path n output_dir w :
  one_file_or_none w n (path_join output_dir (protocol_filename n))
    (table_data w csv_file_path)
    (generate_protocol_from_csv parse_csv csv_file_path n output_dir w).
Proof.
  unfold one_file_or_none, generate_protocol_from_csv, table_data, frame_data.
  destruct (read_csv parse_csv w csv_file_path) as [df| |];
    [|by right..].
  destruct (bo_data df) as [d|e]; [|by right].
  cbn zeta. rewrite read_text_prints, writable_prints.
  destruct (read_text w base_protocol_path) as [protocol_content|] eqn:Hb;
    [|by right].
  destruct (updated_content protocol_content d n) as [text|e] eqn:Ht;
    [|by right].
  destruct (writable w (path_join output_dir (protocol_filename n))) eqn:Hw;
    [|by right].
  left. exists d, protocol_content, text. by rewrite Ht.
Qed.

Lemma generate_protocol_from_dataframe_outcome df n output_dir w :
  one_file_or_none w n (path_join output_dir (protocol_filename n))
    (frame_data df)
    (generate_protocol_from_dataframe df n output_dir w).
Proof.
  unfold one_file_or_none, generate_protocol_from_dataframe, frame_data.
  destruct (bo_data df) as [d|e]; [|by right].
  cbn zeta. rewrite read_text_prints, writable_prints.
  destruct (read_text w base_protocol_path) as [protocol_content|] eqn:Hb;
    [|by right].
  destruct (updated_content protocol_content d n) as [text|e] eqn:Ht;
    [|by right].
  destruct (writable w (path_join output_dir (protocol_filename n))) eqn:Hw;
    [|by right].
  left. exists d, protocol_content, text. by rewrite Ht.
Qed.

Lemma generate_protocol_from_csv_writable csv_file_path n output_dir w :
  writable (generate_protocol_from_csv parse_csv csv_file_path n output_dir w).2
  = writable w.
Proof.
  unfold generate_protocol_from_csv.
  repeat case_match; cbn; by rewrite ?writable_prints.
Qed.

Lemma one_file_or_none_frame w n p data out q :
  one_file_or_none w n p data out -> q <> p ->
  files out.2 !! q = files w !! q.
Proof.
  intros [(d & c & t & _ & _ & _ & _ & _ & ->)|[_ ->]] Hq; [|done].
  by rewrite lookup_insert_ne.
Qed.

Lemma protocol_filename_head n :
  exists r, protocol_filename n = "c"%char :: r.
Proof. unfold protocol_filename. eexists. reflexivity. Qed.

Lemma path_join_filename output_dir n :
  path_join output_dir (protocol_filename n)
  = match output_dir with
    | [] => protocol_filename n
    | _ :: _ =>
        if decide (last output_dir = Some "/"%char)
        then output_dir ++ protocol_filename n
        else output_dir ++ lit "/" ++ protocol_filename n
    end.
Proof.
  destruct (protocol_filename_head n) as [r Hr]. unfold path_join.
  by rewrite Hr.
Qed.

Lemma path_join_dot n :
  path_join (lit ".") (protocol_filename n) = lit "./" ++ protocol_filename n.
Proof. by rewrite path_join_filename. Qed.

Lemma protocol_filename_inj n m :
  protocol_filename n = protocol_filename m -> n = m.
Proof.
  unfold protocol_filename.
  intros H%app_inv_head%app_inv_tail. by apply str_of_int_inj.
Qed.

Lemma protocol_path_inj output_dir n m :
  path_join output_dir (protocol_filename n)
  = path_join output_dir (protocol_filename m) -> n = m.
Proof.
  rewrite !path_join_filename. destruct output_dir as [|c dir].
  - apply protocol_filename_inj.
  - destruct (decide _).
    + intros H%app_inv_head. by apply protocol_filename_inj.
    + intros H%app_inv_head%app_inv_head. by apply protocol_filename_inj.
Qed.

End GeneratorFacts.

Section HandlerFacts.
Import Text.
Variable parse_csv : str -> option DataFrame.

Lemma read_csv_same w w' path :
  files w' !! path = files w !! path ->
  read_csv parse_csv w' path = read_csv parse_csv w path.
Proof. unfold read_csv. by intros ->. Qed.

(** No text before [BO_R] and the digits can start a match that reaches
    into them, unless the text itself holds a match. *)
Lemma bo_r_first pre digits rest :
  Re.search bo_r pre = None ->
  forall pre', length pre' < length pre ->
    ~ occurs_after (pre ++ lit "BO_R" ++ digits ++ rest) pre'.
Proof.
  intros Hsearch pre' Hlen (c & r & Heq & Hc).
  apply app_eq_inv in Heq as [(k & -> & Hk)|(k & -> & Hk)].
  2:{ rewrite length_app in Hlen. lia. }
  rewrite length_app in Hlen.
  do 4 (destruct k as [|? k]; [simpl in *; first [lia | by simplify_eq] |]).
  destruct k as [|? k]; [simpl in Hk; simplify_eq; by vm_compute in Hc|].
  simpl in Hk. simplify_eq.
  apply (search_None_absent _ Hsearch pre').
  eexists _, _. split; [reflexivity | done].
Qed.

(** The path that [update_csv_data_handler] returns. *)
Lemma handler_path csv_file_path w protocol_path w' :
  update_csv_data_handler parse_csv csv_file_path w = (Some protocol_path, w') ->
  protocol_path
  = lit "./" ++ protocol_filename (iteration_of csv_file_path).
Proof.
  rewrite <- path_join_dot.
  unfold update_csv_data_handler, generate_protocol_from_csv.
  repeat case_match; by intros; simplify_eq.
Qed.

End HandlerFacts.

(** * Properties of the generators and of the handler *)


(** A text as it is stored with [\r\n] at the end of every line. *)
Definition crlf (s : str) : str :=
  flat_map (fun c => if Ascii.eqb c LF then [CR; LF] else [c]) s.

(** A base protocol stored with [\r\n] line ends is read with [\n] line
    ends, so its region is found and patched: both generators write the
    text that they write for the same protocol stored with [\n]. *)
Lemma crlf_base_is_patched :
  let w := example_world (crlf example_base) in
  Re.search pattern (crlf example_base) = None
  /\ files (generate_protocol_from_csv example_parse example_csv_path 2
              (lit ".") w).2 !! example_output_path
     = Some example_patched
  /\ files (generate_protocol_from_dataframe example_batch 2 (lit ".") w).2
       !! example_output_path
     = Some example_patched.
Proof. by vm_compute. Qed.


(** X2: how [generate_protocol_from_csv] fails.  It returns [None] only
    when the table cannot be read, the base protocol cannot be read or the
    output cannot be written; it raises only after the table has been read,
    with the exception of a column lookup, or with the error of [re.sub] for
    a data section that is not a well-formed replacement text. *)
Theorem generate_protocol_from_csv_failures
    parse_csv csv_file_path n output_dir w :
  let out :=
    generate_protocol_from_csv parse_csv csv_file_path n output_dir w in
  (out.1 = Ok None ->
   read_csv parse_csv w csv_file_path = CsvNotFound
   \/ read_csv parse_csv w csv_file_path = CsvUnreadable
   \/ files w !! base_protocol_path = None
   \/ writable w (path_join output_dir (protocol_filename n)) = false)
  /\ (forall e, out.1 = Raise e ->
      exists df,
        read_csv parse_csv w csv_file_path = CsvFrame df
        /\ (bo_data df = Raise e
            \/ exists d,
                 bo_data df = Ok d /\ e = TemplateError
                 /\ Re.parse_template (data_section d n) = None)).
Proof.
  intros out. subst out. unfold generate_protocol_from_csv.
  destruct (read_csv parse_csv w csv_file_path) as [df| |];
    [|split; [by auto | done]..].
  destruct (bo_data df) as [d|e0] eqn:Hd.
  2:{ split; [done|]. intros e [= <-]. eauto. }
  cbn zeta. rewrite read_text_prints, writable_prints. unfold read_text.
  destruct (files w !! base_protocol_path) as [stored|];
    cbn [fmap option_fmap option_map]; [|split; [by auto | done]].
  unfold updated_content, Re.sub.
  destruct (Re.parse_template (data_section d n)) as [tmpl|] eqn:Hp.
  - destruct (writable w _); [done|split; [by auto 6 | done]].
  - split; [done|]. intros e [= <-]. exists df. split; [done|]. right.
    by exists d.
Qed.

Lemma generate_protocol_from_csv_failures_witness :
  (read_csv example_parse (World ∅ (fun _ => true) []) example_csv_path
   = CsvNotFound
   \/ read_csv example_parse (World ∅ (fun _ => true) []) example_csv_path
      = CsvUnreadable
   \/ files (World ∅ (fun _ => true) []) !! base_protocol_path = None
   \/ writable (World ∅ (fun _ => true) [])
        (path_join (lit ".") (protocol_filename 2)) = false)
  /\ exists df,
       read_csv (fun _ => Some frame_without_colorC)
         (example_world example_base) example_csv_path = CsvFrame df
       /\ (bo_data df = Raise (KeyError (lit "colorC"))
           \/ exists d,
                bo_data df = Ok d /\ KeyError (lit "colorC") = TemplateError
                /\ Re.parse_template (data_section d 2) = None).
Proof.
  split.
  - apply (generate_protocol_from_csv_failures example_parse example_csv_path
             2 (lit ".") (World ∅ (fun _ => true) [])).
    by vm_compute.
  - apply (generate_protocol_from_csv_failures
             (fun _ => Some frame_without_colorC) example_csv_path
             2 (lit ".") (example_world example_base)).
    by vm_compute.
Defined.

(** The handler follows the generator when the table is not the output
    file. *)
Lemma handler_follows_generator parse_csv csv_file_path w :
  csv_file_path
  <> path_join (lit ".") (protocol_filename (iteration_of csv_file_path)) ->
  let generated :=
    generate_protocol_from_csv parse_csv csv_file_path
      (iteration_of csv_file_path) (lit ".") w in
  let out := update_csv_data_handler parse_csv csv_file_path w in
  files out.2 = files generated.2
  /\ (forall p, out.1 = Some p <-> generated.1 = Ok (Some p))
  /\ (out.1 = None -> files out.2 = files w).
Proof.
  intros Hne generated out. subst generated out.
  unfold update_csv_data_handler.
  pose proof (generate_protocol_from_csv_outcome parse_csv csv_file_path
                (iteration_of csv_file_path) (lit ".") w) as Hout.
  revert Hout. unfold generate_protocol_from_csv.
  destruct (read_csv parse_csv w csv_file_path) as [df| |] eqn:Hread.
  2,3: intros _; split_and!; [done | by split | done].
  destruct (bo_data df) as [d|e].
  2:{ intros _. split_and!; [by rewrite ?files_prints | by split | done]. }
  cbn zeta. rewrite read_text_prints, writable_prints.
  destruct (read_text w base_protocol_path) as [protocol_content|].
  2:{ intros _. split_and!; [done | by split | by rewrite ?files_prints]. }
  destruct (updated_content protocol_content d _) as [text|e].
  2:{ intros _. split_and!; [by rewrite ?files_prints | by split | done]. }
  rewrite path_join_dot in *.
  destruct (writable w _).
  2:{ intros _. split_and!; [done | by split | by rewrite ?files_prints]. }
  intros _. cbn [lit list_ascii_of_string app].
  rewrite (read_csv_same _ w), Hread.
  - split_and!; [done | | done]. intros p. cbn. split; by intros [= <-].
  - cbn [files print write_file snd]. rewrite files_prints.
    apply lookup_insert_ne. intros E. apply Hne. symmetry. exact E.
Qed.






(** X4: the protocols of two iterations are two files: for one output
    directory the output paths of different iteration numbers differ, so a
    run for one iteration leaves the protocol of every other iteration as it
    was. *)
Theorem iterations_write_apart parse_csv csv_file_path df n m output_dir w :
  n <> m ->
  let kept := path_join output_dir (protocol_filename n) in
  kept <> path_join output_dir (protocol_filename m)
  /\ files (generate_protocol_from_csv parse_csv csv_file_path m output_dir
              w).2 !! kept
     = files w !! kept
  /\ files (generate_protocol_from_dataframe df m output_dir w).2 !! kept
     = files w !! kept.
Proof.
  intros Hnm kept.
  assert (kept <> path_join output_dir (protocol_filename m)) as Hne.
  { intros H%protocol_path_inj. done. }
  split_and!; [done|..].
  - eapply one_file_or_none_frame;
      [apply generate_protocol_from_csv_outcome | done].
  - eapply one_file_or_none_frame;
      [apply generate_protocol_from_dataframe_outcome | done].
Qed.

Lemma iterations_write_apart_witness :
  let kept := path_join (lit ".") (protocol_filename 1) in
  kept <> path_join (lit ".") (protocol_filename 2)
  /\ files (generate_protocol_from_csv example_parse example_csv_path 2
              (lit ".") (example_world example_base)).2 !! kept
     = files (example_world example_base) !! kept
  /\ files (generate_protocol_from_dataframe example_batch 2 (lit ".")
              (example_world example_base)).2 !! kept
     = files (example_world example_base) !! kept.
Proof.
  apply (iterations_write_apart example_parse example_csv_path example_batch
           1 2 (lit ".") (example_world example_base)).
  done.
Defined.

(** X5: the number in the name of a table comes back as the iteration
    number.  For a number [n] that is not negative, a path made of a text
    without a match of [BO_R] and digits, then [BO_R], the digits of [n] and
    a rest that does not go on with a digit, has the iteration number [n],
    and a protocol that [update_csv_data_handler] reports for it is
    [./color_mixing_BO<n>.py]. *)
Theorem iteration_round_trip pre n rest :
  (0 <= n)%Z ->
  Re.search bo_r pre = None ->
  match rest with [] => True | c :: _ => Text.is_digit c = false end ->
  let csv_file_path := pre ++ lit "BO_R" ++ Text.str_of_int n ++ rest in
  iteration_of csv_file_path = n
  /\ forall parse_csv w protocol_path w',
       update_csv_data_handler parse_csv csv_file_path w
       = (Some protocol_path, w') ->
       protocol_path
       = lit "./color_mixing_BO" ++ Text.str_of_int n ++ lit ".py".
Proof.
  intros Hn Hpre Hrest csv_file_path.
  destruct (str_of_int_digits n Hn) as (Hne & Hds & Hint).
  assert (iteration_of csv_file_path = n) as Hit.
  { subst csv_file_path. rewrite iteration_of_first; try done.
    by apply bo_r_first. }
  split; [done|]. intros parse_csv w protocol_path w' Hh.
  apply handler_path in Hh. by rewrite Hit in Hh.
Qed.

Lemma iteration_round_trip_witness :
  iteration_of (lit "./data/" ++ lit "BO_R" ++ Text.str_of_int 7 ++ lit ".csv")
  = 7%Z.
Proof.
  apply (iteration_round_trip (lit "./data/") 7 (lit ".csv")); [lia|done..].
Defined.

(** * The data section as a replacement text *)

(** [re.sub] reads its replacement as a template, so what the generator
    writes depends on the backslashes of the data section. *)

(** The characters that [json.dumps] writes after a backslash, but for [u]. *)
Definition short_escape (e : ascii) : bool :=
  Ascii.eqb e Text.dquote || Ascii.eqb e "\" || Ascii.eqb e "n"
  || Ascii.eqb e "r" || Ascii.eqb e "t" || Ascii.eqb e "b" || Ascii.eqb e "f".

(** Every backslash of the text starts an escape of [json.dumps]. *)
Inductive Escaped : str -> Prop :=
| Escaped_nil : Escaped []
| Escaped_chr c s : c <> "\"%char -> Escaped s -> Escaped (c :: s)
| Escaped_esc e s :
    short_escape e = true \/ e = "u"%char -> Escaped s ->
    Escaped ("\"%char :: e :: s).

(** Reading the text escape by escape, a [\u] is met. *)
Inductive MeetsU : str -> Prop :=
| MeetsU_here s : MeetsU ("\"%char :: "u"%char :: s)
| MeetsU_chr c s : c <> "\"%char -> MeetsU s -> MeetsU (c :: s)
| MeetsU_esc e s :
    short_escape e = true -> MeetsU s -> MeetsU ("\"%char :: e :: s).

(** A character that [json.dumps] writes as it is. *)
Definition plain_char (c : ascii) : bool :=
  (32 <=? nat_of_ascii c)%nat && (nat_of_ascii c <=? 126)%nat
  && negb (Ascii.eqb c Text.dquote) && negb (Ascii.eqb c "\").

Definition no_backslash (s : str) : bool :=
  forallb (fun c => negb (Ascii.eqb c "\")) s.

(** The floats of the data are written without a backslash. *)
Definition float_plain (v : cell) : bool :=
  match v with CFloat r => no_backslash r | _ => true end.

Definition floats_plain (d : list (str * list cell)) : bool :=
  forallb (fun kv => forallb float_plain (snd kv)) d.

(** Data whose keys and string values are made of plain characters. *)
Definition plain_cell (v : cell) : bool :=
  match v with
  | CStr s => forallb plain_char s
  | CFloat r => no_backslash r
  | _ => true
  end.

Definition plain_data (d : list (str * list cell)) : bool :=
  forallb (fun kv => forallb plain_char (fst kv) && forallb plain_cell (snd kv))
    d.

Section EscapeFacts.
Import Text.

Lemma ascii_cases (P : ascii -> Prop) :
  (forall b0 b1 b2 b3 b4 b5 b6 b7, P (Ascii b0 b1 b2 b3 b4 b5 b6 b7)) ->
  forall c, P c.
Proof. intros H []. apply H. Qed.

Lemma no_backslash_Forall s :
  no_backslash s = true <-> Forall (fun c => c <> "\"%char) s.
Proof.
  unfold no_backslash. rewrite forallb_forall, Forall_forall.
  split; intros H c Hc.
  - apply list_elem_of_In, H in Hc. apply negb_true_iff in Hc.
    by apply Ascii.eqb_neq.
  - apply negb_true_iff, Ascii.eqb_neq. by apply H, list_elem_of_In.
Qed.

Lemma no_backslash_app a b :
  no_backslash (a ++ b) = no_backslash a && no_backslash b.
Proof. apply forallb_app. Qed.

Lemma no_backslash_flat_map {A} (f : A -> str) l :
  Forall (fun x => no_backslash (f x) = true) l ->
  no_backslash (flat_map f l) = true.
Proof.
  induction 1 as [|x l Hx _ IH]; [done|]. simpl.
  by rewrite no_backslash_app, Hx, IH.
Qed.

Lemma no_backslash_join sep parts :
  no_backslash sep = true ->
  Forall (fun p => no_backslash p = true) parts ->
  no_backslash (join sep parts) = true.
Proof.
  intros Hsep. induction 1 as [|p ps Hp Hps IH]; [done|].
  destruct ps as [|q ps]; [done|].
  change (join sep (p :: q :: ps)) with (p ++ sep ++ join sep (q :: ps)).
  by rewrite !no_backslash_app, Hp, Hsep, IH.
Qed.

Lemma no_backslash_spaces n : no_backslash (spaces n) = true.
Proof. induction n; [done|]. simpl. exact IHn. Qed.

Lemma no_backslash_digits s :
  Forall (fun c => is_digit c = true) s -> no_backslash s = true.
Proof.
  intros H. apply no_backslash_Forall. eapply Forall_impl; [exact H|].
  intros c Hc ->. by vm_compute in Hc.
Qed.

Lemma no_backslash_str_of_int n : no_backslash (str_of_int n) = true.
Proof.
  unfold str_of_int. destruct n as [|p|p]; [done|..]; simpl.
  - destruct (Pos.to_uint p) eqn:E; [done|..]; rewrite <- E;
      (replace (NilZero.string_of_uint (Pos.to_uint p))
         with (NilEmpty.string_of_uint (Pos.to_uint p)) by (by rewrite E));
      apply no_backslash_digits, uint_digits.
  - destruct (Pos.to_uint p) eqn:E; [done|..]; rewrite <- E;
      (replace (NilZero.string_of_uint (Pos.to_uint p))
         with (NilEmpty.string_of_uint (Pos.to_uint p)) by (by rewrite E));
      apply no_backslash_digits, uint_digits.
Qed.

(** *** Texts without a backslash *)

Lemma Escaped_plain s : no_backslash s = true -> Escaped s.
Proof.
  intros H%no_backslash_Forall. induction H; by constructor.
Qed.

Lemma Escaped_app a b : Escaped a -> Escaped b -> Escaped (a ++ b).
Proof.
  intros Ha Hb.
  induction Ha; simpl; [done | apply Escaped_chr; auto | apply Escaped_esc; auto].
Qed.

Lemma Escaped_flat_map {A} (f : A -> str) l :
  Forall (fun x => Escaped (f x)) l -> Escaped (flat_map f l).
Proof.
  induction 1 as [|x l Hx _ IH]; [constructor|]. simpl. by apply Escaped_app.
Qed.

Lemma Escaped_join sep parts :
  Escaped sep -> Forall Escaped parts -> Escaped (join sep parts).
Proof.
  intros Hsep. induction 1 as [|p ps Hp Hps IH]; [constructor|].
  destruct ps as [|q ps]; [done|].
  change (join sep (p :: q :: ps)) with (p ++ sep ++ join sep (q :: ps)).
  by repeat apply Escaped_app.
Qed.

Lemma MeetsU_app_r a b : MeetsU a -> MeetsU (a ++ b).
Proof. induction 1; simpl; by constructor. Qed.

Lemma MeetsU_app_l a b : Escaped a -> MeetsU b -> MeetsU (a ++ b).
Proof.
  induction 1 as [|c s Hc _ IH|e s [He| ->] _ IH]; intros Hb; simpl;
    [done | by constructor; auto | by constructor; auto | constructor].
Qed.

Lemma MeetsU_join sep parts p :
  Escaped sep -> Forall Escaped parts -> p ∈ parts -> MeetsU p ->
  MeetsU (join sep parts).
Proof.
  intros Hsep Hparts Hin Hp.
  induction Hparts as [|q ps Hq Hps IH]; [by apply elem_of_nil in Hin|].
  destruct ps as [|q' ps].
  - apply list_elem_of_singleton in Hin as ->. done.
  - change (join sep (q :: q' :: ps)) with (q ++ sep ++ join sep (q' :: ps)).
    apply elem_of_cons in Hin as [->|Hin].
    + by apply MeetsU_app_r.
    + apply MeetsU_app_l; [done|]. apply MeetsU_app_l; [done|]. by apply IH.
Qed.

(** *** The escapes of [json.dumps] *)

Lemma escape_char_Escaped c : Escaped (Json.escape_char c).
Proof.
  revert c. apply ascii_cases.
  intros [] [] [] [] [] [] [] []; vm_compute;
    repeat first
      [ apply Escaped_nil
      | apply Escaped_chr; [discriminate|]
      | apply Escaped_esc; [first [by left | by right]|] ].
Qed.

Lemma escape_char_MeetsU c :
  (127 <= nat_of_ascii c)%nat -> MeetsU (Json.escape_char c).
Proof.
  intros H%Nat.leb_le. revert H.
  destruct c as [[] [] [] [] [] [] [] []].
  all: vm_compute.
  all: try discriminate.
  all: intros _; apply MeetsU_here.
Qed.

Lemma escape_char_plain c : plain_char c = true -> Json.escape_char c = [c].
Proof.
  destruct c as [[] [] [] [] [] [] [] []].
  all: vm_compute.
  all: try discriminate.
  all: intros _; reflexivity.
Qed.

Lemma plain_char_no_backslash c :
  plain_char c = true -> c <> "\"%char.
Proof.
  unfold plain_char. intros H ->. by vm_compute in H.
Qed.

Lemma encode_str_Escaped s : Escaped (Json.encode_str s).
Proof.
  unfold Json.encode_str. apply Escaped_chr; [done|].
  apply Escaped_app; [|by repeat constructor].
  apply Escaped_flat_map, Forall_forall. intros c _.
  apply escape_char_Escaped.
Qed.

Lemma encode_str_MeetsU s c :
  c ∈ s -> (127 <= nat_of_ascii c)%nat -> MeetsU (Json.encode_str s).
Proof.
  intros Hin Hc. unfold Json.encode_str. apply MeetsU_chr; [done|].
  apply MeetsU_app_r.
  induction s as [|a s IH]; [by apply elem_of_nil in Hin|]. simpl.
  apply elem_of_cons in Hin as [<-|Hin].
  - by apply MeetsU_app_r, escape_char_MeetsU.
  - apply MeetsU_app_l; [apply escape_char_Escaped | by apply IH].
Qed.

Lemma encode_str_plain s :
  forallb plain_char s = true -> no_backslash (Json.encode_str s) = true.
Proof.
  intros H. unfold Json.encode_str.
  change (dquote :: ?x) with ([dquote] ++ x).
  rewrite !no_backslash_app. simpl. rewrite andb_true_r.
  apply no_backslash_flat_map, Forall_forall. intros c Hc.
  rewrite forallb_forall in H. apply list_elem_of_In, H in Hc.
  rewrite (escape_char_plain _ Hc). simpl. rewrite andb_true_r.
  apply negb_true_iff, Ascii.eqb_neq. by apply plain_char_no_backslash.
Qed.

Lemma encode_cell_Escaped v :
  float_plain v = true -> Escaped (Json.encode_cell v).
Proof.
  destruct v as [|n|r| |[]|[]|s]; simpl; intros H;
    try (by apply Escaped_plain).
  - apply Escaped_plain, no_backslash_str_of_int.
  - apply encode_str_Escaped.
Qed.

Lemma encode_cell_plain v :
  plain_cell v = true -> no_backslash (Json.encode_cell v) = true.
Proof.
  destruct v as [|n|r| |[]|[]|s]; simpl; intros H; try done.
  - apply no_backslash_str_of_int.
  - by apply encode_str_plain.
Qed.

Lemma newline_indent_plain i l : no_backslash (Json.newline_indent i l) = true.
Proof. unfold Json.newline_indent. simpl. apply no_backslash_spaces. Qed.

Lemma encode_list_Escaped i l vs :
  forallb float_plain vs = true -> Escaped (Json.encode_list i l vs).
Proof.
  intros H. unfold Json.encode_list. destruct vs as [|v vs]; [by apply Escaped_plain|].
  repeat apply Escaped_app; try (by apply Escaped_plain);
    try apply Escaped_plain, newline_indent_plain.
  apply Escaped_join.
  - apply Escaped_plain. rewrite no_backslash_app, newline_indent_plain. done.
  - apply Forall_forall. intros p (v' & -> & Hv)%list_elem_of_fmap.
    apply encode_cell_Escaped. rewrite forallb_forall in H.
    by apply H, list_elem_of_In.
Qed.

Lemma encode_list_MeetsU i l vs s c :
  forallb float_plain vs = true ->
  CStr s ∈ vs -> c ∈ s -> (127 <= nat_of_ascii c)%nat ->
  MeetsU (Json.encode_list i l vs).
Proof.
  intros H Hs Hin Hc. unfold Json.encode_list.
  destruct vs as [|v vs]; [by apply elem_of_nil in Hs|].
  apply MeetsU_app_l; [by apply Escaped_plain|].
  apply MeetsU_app_l; [apply Escaped_plain, newline_indent_plain|].
  apply MeetsU_app_r.
  apply (MeetsU_join _ _ (Json.encode_cell (CStr s))).
  - apply Escaped_plain. rewrite no_backslash_app, newline_indent_plain. done.
  - apply Forall_forall. intros p (v' & -> & Hv)%list_elem_of_fmap.
    apply encode_cell_Escaped. rewrite forallb_forall in H.
    by apply H, list_elem_of_In.
  - apply list_elem_of_fmap. by exists (CStr s).
  - simpl. by apply (encode_str_MeetsU s c).
Qed.

Lemma encode_list_plain i l vs :
  forallb plain_cell vs = true ->
  no_backslash (Json.encode_list i l vs) = true.
Proof.
  intros H. unfold Json.encode_list. destruct vs as [|v vs]; [done|].
  rewrite !no_backslash_app.
  repeat (apply andb_true_intro; split);
    try done; try apply newline_indent_plain.
  apply no_backslash_join.
  - by rewrite no_backslash_app, newline_indent_plain.
  - apply Forall_forall. intros p (v' & -> & Hv)%list_elem_of_fmap.
    apply encode_cell_plain. rewrite forallb_forall in H.
    by apply H, list_elem_of_In.
Qed.

Lemma encode_item_Escaped i l kv :
  forallb float_plain (snd kv) = true -> Escaped (Json.encode_item i l kv).
Proof.
  intros H. unfold Json.encode_item.
  apply Escaped_app; [apply encode_str_Escaped|].
  apply Escaped_app; [by apply Escaped_plain|]. by apply encode_list_Escaped.
Qed.

Lemma dumps_Escaped d i :
  floats_plain d = true -> Escaped (Json.dumps d i).
Proof.
  intros H. unfold Json.dumps. destruct d as [|kv d]; [by apply Escaped_plain|].
  repeat apply Escaped_app; try (by apply Escaped_plain);
    try apply Escaped_plain, newline_indent_plain.
  apply Escaped_join.
  - apply Escaped_plain. rewrite no_backslash_app, newline_indent_plain. done.
  - apply Forall_forall. intros p (kv' & -> & Hkv)%list_elem_of_fmap.
    apply encode_item_Escaped. unfold floats_plain in H.
    rewrite forallb_forall in H. by apply (H kv'), list_elem_of_In.
Qed.

Lemma dumps_MeetsU d i name vs s c :
  floats_plain d = true ->
  (name, vs) ∈ d -> CStr s ∈ vs -> c ∈ s -> (127 <= nat_of_ascii c)%nat ->
  MeetsU (Json.dumps d i).
Proof.
  intros H Hkv Hs Hin Hc. unfold Json.dumps.
  destruct d as [|kv d]; [by apply elem_of_nil in Hkv|].
  apply MeetsU_app_l; [by apply Escaped_plain|].
  apply MeetsU_app_l; [apply Escaped_plain, newline_indent_plain|].
  apply MeetsU_app_r.
  unfold floats_plain in H. rewrite forallb_forall in H.
  apply (MeetsU_join _ _ (Json.encode_item i 1 (name, vs))).
  - apply Escaped_plain. rewrite no_backslash_app, newline_indent_plain. done.
  - apply Forall_forall. intros p (kv' & -> & Hkv')%list_elem_of_fmap.
    apply encode_item_Escaped. by apply (H kv'), list_elem_of_In.
  - apply list_elem_of_fmap. by exists (name, vs).
  - unfold Json.encode_item.
    apply MeetsU_app_l; [apply encode_str_Escaped|].
    apply MeetsU_app_l; [by apply Escaped_plain|].
    apply (encode_list_MeetsU _ _ _ s c); try done.
    by apply (H (name, vs)), list_elem_of_In.
Qed.

Lemma dumps_plain d i :
  plain_data d = true -> no_backslash (Json.dumps d i) = true.
Proof.
  intros H. unfold Json.dumps. destruct d as [|kv d]; [done|].
  rewrite !no_backslash_app.
  repeat (apply andb_true_intro; split);
    try done; try apply newline_indent_plain.
  apply no_backslash_join.
  - by rewrite no_backslash_app, newline_indent_plain.
  - apply Forall_forall. intros p (kv' & -> & Hkv)%list_elem_of_fmap.
    unfold plain_data in H. rewrite forallb_forall in H.
    apply list_elem_of_In, H, andb_true_iff in Hkv as [Hk Hv].
    unfold Json.encode_item. rewrite !no_backslash_app.
    by rewrite encode_str_plain, encode_list_plain.
Qed.

(** *** The two [str.replace] of the data section *)

Lemma replace_brace_MeetsU o new s :
  short_escape o = false -> o <> "u"%char -> o <> "\"%char ->
  no_backslash new = true ->
  MeetsU s -> MeetsU (replace [o] new s).
Proof.
  intros Ho Hu Hb Hnew. rewrite replace_single.
  assert (forall c, c <> "\"%char ->
            Escaped (if Ascii.eqb o c then new else [c])) as Hchr.
  { intros c Hc. destruct (Ascii.eqb o c); [by apply Escaped_plain|].
    by repeat constructor. }
  assert (Ascii.eqb o "\" = false) as Hb' by (by apply Ascii.eqb_neq).
  induction 1 as [s|c s Hc _ IH|e s He _ IH]; simpl.
  - apply Ascii.eqb_neq in Hu. rewrite Hb', Hu. constructor.
  - by apply MeetsU_app_l; [apply Hchr|].
  - rewrite Hb'. destruct (Ascii.eqb_spec o e) as [->|Hne]; [congruence|].
    by constructor.
Qed.

Lemma replace_brace_plain o new s :
  no_backslash new = true -> no_backslash s = true ->
  no_backslash (replace [o] new s) = true.
Proof.
  intros Hnew Hs. rewrite replace_single.
  apply no_backslash_flat_map, Forall_forall. intros c Hc.
  destruct (Ascii.eqb o c); [done|]. simpl. rewrite andb_true_r.
  unfold no_backslash in Hs. rewrite forallb_forall in Hs.
  by apply Hs, list_elem_of_In.
Qed.

Lemma data_section_MeetsU d n name vs s c :
  floats_plain d = true ->
  (name, vs) ∈ d -> CStr s ∈ vs -> c ∈ s -> (127 <= nat_of_ascii c)%nat ->
  MeetsU (data_section d n).
Proof.
  intros H Hkv Hs Hin Hc. unfold data_section.
  apply MeetsU_app_l; [by apply Escaped_plain|].
  apply MeetsU_app_l; [apply Escaped_plain, no_backslash_str_of_int|].
  apply MeetsU_app_l; [by apply Escaped_plain|].
  apply MeetsU_app_l; [by apply Escaped_plain|].
  change (lit "}") with ["}"%char]. change (lit "{") with ["{"%char].
  apply replace_brace_MeetsU; [done..|].
  apply replace_brace_MeetsU; [done..|].
  by apply (dumps_MeetsU d 8 name vs s c).
Qed.

Lemma data_section_plain d n :
  plain_data d = true -> no_backslash (data_section d n) = true.
Proof.
  intros H. unfold data_section.
  rewrite !no_backslash_app, no_backslash_str_of_int. simpl.
  change (lit "}") with ["}"%char]. change (lit "{") with ["{"%char].
  apply replace_brace_plain; [done|].
  apply replace_brace_plain; [done|]. by apply dumps_plain.
Qed.

(** *** The template of [re.sub] *)

Lemma parse_go_MeetsU s : MeetsU s -> forall fuel, Re.parse_go fuel s = None.
Proof.
  induction 1 as [s|c s Hc _ IH|e s He _ IH]; intros [|fuel]; try done.
  - simpl. apply Ascii.eqb_neq in Hc. rewrite Hc. simpl. by rewrite IH.
  - assert (e = dquote \/ e = "\"%char \/ e = "n"%char \/ e = "r"%char
            \/ e = "t"%char \/ e = "b"%char \/ e = "f"%char) as Hcases.
    { unfold short_escape in He.
      repeat (apply orb_true_iff in He as [He|He]);
        apply Ascii.eqb_eq in He; auto 10. }
    destruct Hcases as [->|[->|[->|[->|[->|[->| ->]]]]]]; simpl;
      by rewrite IH.
Qed.

Lemma parse_go_plain s fuel :
  no_backslash s = true -> length s < fuel ->
  Re.parse_go fuel s = Some (map Re.Chr s).
Proof.
  revert fuel. induction s as [|c s IH]; intros [|fuel] H Hlen; try done;
    simpl in Hlen; try lia.
  simpl in H. apply andb_true_iff in H as [Hc Hs]. simpl. rewrite Hc.
  rewrite IH by (done || lia). done.
Qed.

Lemma expand_chars s m : Re.expand (map Re.Chr s) m = s.
Proof. unfold Re.expand. induction s as [|c s IH]; [done|]. simpl. by rewrite IH. Qed.

End EscapeFacts.

Section SearchPattern.

Lemma search_pattern_none_in s t :
  none_in matches s t = true ->
  Re.search pattern (s ++ t) = Re.search pattern t.
Proof.
  induction s as [|c s IH]; [done|]. simpl none_in.
  intros [Hc Hs]%andb_true_iff. apply negb_true_iff in Hc.
  unfold matches in Hc.
  change ((c :: s) ++ t) with (c :: s ++ t) in *. simpl Re.search.
  destruct (pattern (c :: s ++ t)) as [r|]; [done|by apply IH].
Qed.

(** The marker followed at once by a close brace holds no match. *)
Lemma empty_literal_none_in rest :
  none_in matches (marker ++ ["}"%char]) rest = true.
Proof. by vm_compute. Qed.

End SearchPattern.

(** X6: a character outside ASCII in a string value stops generation.
    [json.dumps] writes a character of code 127 or more as [\u00..], and
    [re.sub] rejects a replacement text with the escape [\u]: when the floats
    of the table are written without a backslash, the generators raise the
    error of [re.sub] and write nothing. *)
Theorem non_ascii_text_raises
    parse_csv csv_file_path df d n output_dir w protocol_content name vs s c :
  bo_data df = Ok d ->
  floats_plain d = true ->
  (name, vs) ∈ d -> CStr s ∈ vs -> c ∈ s -> (127 <= nat_of_ascii c)%nat ->
  files w !! base_protocol_path = Some protocol_content ->
  let from_dataframe := generate_protocol_from_dataframe df n output_dir w in
  (from_dataframe.1 = Raise TemplateError
   /\ files from_dataframe.2 = files w)
  /\ (read_csv parse_csv w csv_file_path = CsvFrame df ->
      let from_csv :=
        generate_protocol_from_csv parse_csv csv_file_path n output_dir w in
      from_csv.1 = Raise TemplateError /\ files from_csv.2 = files w).
Proof.
  intros Hd Hfl Hkv Hs Hin Hc Hbase.
  assert (forall text, updated_content text d n = Raise TemplateError) as Hup.
  { intros text. unfold updated_content, Re.sub, Re.parse_template.
    by rewrite (parse_go_MeetsU _
                  (data_section_MeetsU d n name vs s c Hfl Hkv Hs Hin Hc)). }
  apply read_text_Some in Hbase. split.
  - unfold generate_protocol_from_dataframe. rewrite Hd. cbn zeta.
    rewrite read_text_prints, Hbase, Hup. split; [done|]. apply files_prints.
  - intros Hread. unfold generate_protocol_from_csv. rewrite Hread, Hd.
    cbn zeta. rewrite read_text_prints, Hbase, Hup. split; [done|].
    apply files_prints.
Qed.

(** A table with an accented letter in a position name. *)
Definition accented_frame : DataFrame :=
  [(lit "colorA", [CFloat (lit "1.0")]); (lit "colorB", [CFloat (lit "3.0")]);
   (lit "colorC", [CFloat (lit "5.0")]);
   (lit "DispensePos", [CStr ["193"%char; "1"%char]])].

Lemma non_ascii_text_raises_witness :
  (generate_protocol_from_dataframe accented_frame 2 (lit ".")
     (example_world example_base)).1 = Raise TemplateError
  /\ files (generate_protocol_from_dataframe accented_frame 2 (lit ".")
              (example_world example_base)).2
     = files (example_world example_base).
Proof.
  apply (non_ascii_text_raises example_parse example_csv_path accented_frame
           accented_frame 2 (lit ".") (example_world example_base)
           example_base (lit "DispensePos") [CStr ["193"%char; "1"%char]]
           ["193"%char; "1"%char] "193"%char).
  - by vm_compute.
  - by vm_compute.
  - do 3 apply list_elem_of_further. apply list_elem_of_here.
  - apply list_elem_of_here.
  - apply list_elem_of_here.
  - apply Nat.leb_le. by vm_compute.
  - by vm_compute.
Defined.

(** The patch of a base protocol with one region, for plain data. *)
Lemma updated_content_plain d n s0 body s1 :
  plain_data d = true ->
  body <> [] -> Forall (fun c => c <> "}"%char) body ->
  none_in matches s0 (marker ++ body ++ "}"%char :: s1) = true ->
  Re.search pattern s1 = None ->
  let protocol_content := s0 ++ marker ++ body ++ "}"%char :: s1 in
  Re.sub pattern (data_section d n) protocol_content
  = Ok (s0 ++ data_section d n ++ s1)
  /\ updated_content protocol_content d n
     = Ok (Text.replace protocol_name (iteration_name n)
             (s0 ++ data_section d n ++ s1)).
Proof.
  intros Hd Hne Hbody Hs0 Hs1 protocol_content.
  assert (Re.sub pattern (data_section d n) protocol_content
          = Ok (s0 ++ data_section d n ++ s1)) as Hsub.
  { unfold Re.sub, Re.parse_template.
    rewrite (parse_go_plain _ _ (data_section_plain d n Hd)) by lia.
    f_equal. subst protocol_content.
    rewrite (sub_go_none_in _ _ _ Hs0). f_equal.
    rewrite (sub_go_region _ _ _ Hne Hbody), expand_chars. f_equal.
    by apply search_None_sub_go. }
  split; [done|]. unfold updated_content. by rewrite Hsub.
Qed.


(** X7: data made of plain characters is written as rendered.  When the
    keys and string values hold only printable ASCII characters other than
    the double quote and the backslash, and the floats no backslash, the
    region of the base protocol becomes the text of the data section itself:
    the line [# BO ITERATION DATA - BO<n>] and the rendering of
    [json.dumps] with its braces set on lines of their own. *)
Theorem plain_data_written_as_rendered d n s0 body s1 :
  plain_data d = true ->
  body <> [] -> Forall (fun c => c <> "}"%char) body ->
  none_in matches s0 (marker ++ body ++ "}"%char :: s1) = true ->
  Re.search pattern s1 = None ->
  let protocol_content := s0 ++ marker ++ body ++ "}"%char :: s1 in
  Re.sub pattern (data_section d n) protocol_content
  = Ok (s0 ++ data_section d n ++ s1)
  /\ updated_content protocol_content d n
     = Ok (Text.replace protocol_name (iteration_name n)
             (s0 ++ data_section d n ++ s1)).
Proof. apply updated_content_plain. Qed.

Lemma plain_data_written_as_rendered_witness :
  let s0 := lit "def run(protocol):
" in
  let s1 := lit "
    protocol.comment('ready')
" in
  Re.sub pattern (data_section example_batch 2)
    (s0 ++ marker ++ lit "'colorA': []" ++ "}"%char :: s1)
  = Ok (s0 ++ data_section example_batch 2 ++ s1).
Proof.
  intros s0 s1.
  apply (plain_data_written_as_rendered example_batch 2 s0
           (lit "'colorA': []") s1).
  - by vm_compute.
  - done.
  - apply (bool_decide_unpack _). by vm_compute.
  - by vm_compute.
  - by vm_compute.
Defined.

(** X8: an empty literal is no region.  The pattern asks for at least one
    character between the braces, so a base protocol whose marker is
    followed by [BO_DATA = {}] is not patched there: when no match starts
    before the marker or after the literal, the pattern matches nowhere and
    the text that is written is the base protocol with its name
    replaced. *)
Theorem empty_literal_not_patched s0 rest d n :
  none_in matches s0 (marker ++ "}"%char :: rest) = true ->
  Re.search pattern rest = None ->
  let protocol_content := s0 ++ marker ++ "}"%char :: rest in
  Re.search pattern protocol_content = None
  /\ forall text,
       updated_content protocol_content d n = Ok text ->
       text
       = Text.replace protocol_name (iteration_name n) protocol_content.
Proof.
  intros Hs0 Hrest protocol_content.
  assert (Re.search pattern protocol_content = None) as Hnone.
  { subst protocol_content. rewrite (search_pattern_none_in _ _ Hs0).
    replace (marker ++ "}"%char :: rest)
      with ((marker ++ ["}"%char]) ++ rest) by (by rewrite <- app_assoc).
    by rewrite (search_pattern_none_in _ _ (empty_literal_none_in rest)). }
  split; [done|]. intros text. unfold updated_content, Re.sub.
  destruct (Re.parse_template (data_section d n)) as [tmpl|]; [|done].
  intros [= <-]. by rewrite (search_None_sub_go tmpl _ Hnone).
Qed.

Lemma empty_literal_not_patched_witness :
  let s0 := lit "def run(protocol):
" in
  let rest := lit "
    protocol.comment('ready')
" in
  Re.search pattern (s0 ++ marker ++ "}"%char :: rest) = None.
Proof.
  intros s0 rest.
  apply (empty_literal_not_patched s0 rest example_batch 2); by vm_compute.
Defined.

(** * The example loop: [bo_loop_example.py] *)

(** ** The positions of [generate_sample_bo_data] *)

(** [n_experiments = 3 + iteration] *)
Definition n_experiments (iteration : Z) : Z := 3 + iteration.

(** [f"{chr(65 + i//12)}{1 + i%12}"]; the letter stays in Latin-1 for
    [i] below 2292. *)
Definition dispense_pos (i : nat) : str :=
  ascii_of_nat (65 + i / 12)
  :: Text.str_of_int (Z.of_nat (1 + i mod 12)).

(** The list comprehension of the column ['DispensePos'], over
    [range(n_experiments)]. *)
Definition dispense_positions (n_experiments : Z) : list str :=
  map dispense_pos (seq 0 (Z.to_nat n_experiments)).

(** The wells of a plate of 8 rows and 12 columns, row by row: [A1] to
    [A12], then [B1], up to [H12]. *)
Definition plate_wells : list str :=
  flat_map
    (fun row => map (fun col => row :: Text.str_of_int col)
                  [1; 2; 3; 4; 5; 6; 7; 8; 9; 10; 11; 12]%Z)
    (lit "ABCDEFGH").

Section PositionFacts.

Lemma plate_wells_positions : plate_wells = map dispense_pos (seq 0 96).
Proof. by vm_compute. Qed.

Lemma plate_wells_NoDup : NoDup plate_wells.
Proof. apply (bool_decide_unpack _). by vm_compute. Qed.

Lemma take_map_seq {A} (f : nat -> A) k n :
  k <= n -> take k (map f (seq 0 n)) = map f (seq 0 k).
Proof.
  intros Hk. rewrite <- fmap_take. f_equal.
  replace n with (k + (n - k)) by lia. rewrite seq_app, take_app_length'; [done|].
  by rewrite length_seq.
Qed.

End PositionFacts.

(** X9: the sample positions are wells of the plate, in row order.  For at
    most 96 experiments, that is up to iteration 93, the positions are the
    first wells of a plate of 8 rows and 12 columns, each once; the 97th
    position is [I1], which the plate does not have. *)
Theorem dispense_positions_on_plate (iteration : Z) :
  ((n_experiments iteration <= 96)%Z ->
   dispense_positions (n_experiments iteration)
   = take (Z.to_nat (n_experiments iteration)) plate_wells
   /\ NoDup (dispense_positions (n_experiments iteration)))
  /\ ((96 < n_experiments iteration)%Z ->
      dispense_positions (n_experiments iteration) !! 96%nat = Some (lit "I1")
      /\ lit "I1" ∉ plate_wells).
Proof.
  unfold dispense_positions. split.
  - intros Hn.
    assert (take (Z.to_nat (n_experiments iteration)) plate_wells
            = map dispense_pos (seq 0 (Z.to_nat (n_experiments iteration))))
      as Htake.
    { rewrite plate_wells_positions. apply take_map_seq. lia. }
    split; [done|]. rewrite <- Htake.
    eapply sublist_NoDup; [apply plate_wells_NoDup | apply sublist_take].
  - intros Hn. split.
    + rewrite list_lookup_fmap, lookup_seq_lt by lia. done.
    + apply (bool_decide_unpack _). by vm_compute.
Qed.

Lemma dispense_positions_on_plate_witness :
  (dispense_positions (n_experiments 2)
   = take (Z.to_nat (n_experiments 2)) plate_wells
   /\ NoDup (dispense_positions (n_experiments 2)))
  /\ (dispense_positions (n_experiments 94) !! 96%nat = Some (lit "I1")
      /\ lit "I1" ∉ plate_wells).
Proof.
  split.
  - apply (dispense_positions_on_plate 2). by vm_compute.
  - apply (dispense_positions_on_plate 94). by vm_compute.
Defined.

(** ** The listing of [demonstrate_protocol_content] *)

(** [s.endswith(p)] *)
Definition ends_with (p s : str) : bool := Text.starts_with (rev p) (rev s).

(** The names that [demonstrate_protocol_content] keeps from the listing
    of the current directory. *)
Definition is_protocol_file (f : str) : bool :=
  Text.starts_with (lit "color_mixing_BO") f && ends_with (lit ".py") f.

(** X10: the listing finds what the generators name.  Every file name
    [color_mixing_BO<n>.py] that a generator makes is kept by the filter of
    [demonstrate_protocol_content], for every iteration number; the base
    protocol [color_mixing.py] is not. *)
Theorem generated_names_are_listed (n : Z) :
  is_protocol_file (protocol_filename n) = true
  /\ is_protocol_file base_protocol_path = false.
Proof.
  split; [|done]. unfold is_protocol_file, protocol_filename, ends_with.
  rewrite starts_with_app, !rev_app_distr, <- !app_assoc.
  by rewrite starts_with_app.
Qed.

(** ** The data section that [demonstrate_protocol_content] shows *)

(** The characters that [str.strip] removes, among those of Latin-1. *)
Definition is_space (c : ascii) : bool :=
  let n := nat_of_ascii c in
  ((9 <=? n) && (n <=? 13) || (28 <=? n) && (n <=? 32)
   || (n =? 133) || (n =? 160))%nat.

Fixpoint lstrip (s : str) : str :=
  match s with
  | [] => []
  | c :: s' => if is_space c then lstrip s' else s
  end.

(** [s.strip()] *)
Definition strip (s : str) : str := rev (lstrip (rev (lstrip s))).

Definition data_marker : str := lit "# BO ITERATION DATA".

(** The loop over [lines] that collects [data_lines]; [in_data_section] is
    the flag of the source, and the loop ends at [break]. *)
Fixpoint data_lines_from (in_data_section : bool) (lines : list str)
  : list str :=
  match lines with
  | [] => []
  | line :: rest =>
      if Text.contains data_marker line
      then strip line :: data_lines_from true rest
      else if in_data_section && Text.starts_with (lit "}") (strip line)
      then [strip line]
      else if in_data_section
      then strip line :: data_lines_from true rest
      else data_lines_from false rest
  end.

Definition data_lines (lines : list str) : list str :=
  data_lines_from false lines.

(** A line at which the loop stops once it is in the data section. *)
Definition closes (line : str) : bool :=
  negb (Text.contains data_marker line)
  && Text.starts_with (lit "}") (strip line).

Section DataLinesFacts.

Lemma data_lines_from_before b pre rest :
  b = false ->
  Forall (fun l => Text.contains data_marker l = false) pre ->
  data_lines_from b (pre ++ rest) = data_lines_from b rest.
Proof.
  intros ->. induction 1 as [|l pre Hl _ IH]; [done|]. simpl. by rewrite Hl.
Qed.

Lemma data_lines_from_inside mid rest :
  Forall (fun l => closes l = false) mid ->
  data_lines_from true (mid ++ rest)
  = map strip mid ++ data_lines_from true rest.
Proof.
  induction 1 as [|l mid Hl _ IH]; [done|]. simpl.
  unfold closes in Hl.
  destruct (Text.contains data_marker l); simpl in *; [by rewrite IH|].
  rewrite Hl. by rewrite IH.
Qed.

End DataLinesFacts.

(** The scan, from the lines before the marker to the closing line. *)
Lemma data_lines_scan pre first mid :
  Forall (fun l => Text.contains data_marker l = false) pre ->
  Text.contains data_marker first = true ->
  Forall (fun l => closes l = false) mid ->
  data_lines pre = []
  /\ data_lines (pre ++ first :: mid) = map strip (first :: mid)
  /\ forall closing post,
       closes closing = true ->
       data_lines (pre ++ first :: mid ++ closing :: post)
       = map strip (first :: mid ++ [closing]).
Proof.
  intros Hpre Hfirst Hmid. unfold data_lines. split_and!.
  - rewrite <- (app_nil_r pre). by rewrite data_lines_from_before.
  - rewrite data_lines_from_before by done. simpl. rewrite Hfirst.
    rewrite <- (app_nil_r mid) at 1.
    rewrite data_lines_from_inside by done. simpl. by rewrite app_nil_r.
  - intros closing post Hc. rewrite data_lines_from_before by done.
    simpl. rewrite Hfirst. rewrite data_lines_from_inside by done.
    unfold closes in Hc. apply andb_true_iff in Hc as [Hm Hs].
    apply negb_true_iff in Hm. cbn [data_lines_from]. rewrite Hm, Hs.
    cbn [andb]. by rewrite fmap_app.
Qed.


(** X11: what the scan of [demonstrate_protocol_content] collects.  It
    starts at the first line that holds [# BO ITERATION DATA] and takes every
    line, stripped, up to and including the first later line that starts
    with a close brace and does not hold the marker; without such a line it
    runs to the end of the file, and without a marker line it collects
    nothing. *)
Theorem data_lines_block pre first mid :
  Forall (fun l => Text.contains data_marker l = false) pre ->
  Text.contains data_marker first = true ->
  Forall (fun l => closes l = false) mid ->
  data_lines pre = []
  /\ data_lines (pre ++ first :: mid) = map strip (first :: mid)
  /\ forall closing post,
       closes closing = true ->
       data_lines (pre ++ first :: mid ++ closing :: post)
       = map strip (first :: mid ++ [closing]).
Proof. apply data_lines_scan. Qed.

Lemma data_lines_block_witness :
  let pre := [lit "def run(protocol):"] in
  let first := lit "    # BO ITERATION DATA - BO2" in
  let mid := [lit "    BO_DATA = {"; lit "        "] in
  data_lines pre = []
  /\ data_lines (pre ++ first :: mid) = map strip (first :: mid)
  /\ forall closing post,
       closes closing = true ->
       data_lines (pre ++ first :: mid ++ closing :: post)
       = map strip (first :: mid ++ [closing]).
Proof.
  intros pre first mid.
  apply (data_lines_block pre first mid).
  - by repeat constructor.
  - by vm_compute.
  - by repeat constructor.
Defined.

(** ** [run_bo_loop_example] *)

(** What the loop prints itself. *)
Inductive loop_msg :=
| LTarget
| LRule
| LIteration (iteration : Z)
| LGeneratedData (iteration : Z)
| LProcessing (csv_file : str)
| LComplete (iteration : Z)
| LProtocolReady (protocol_file : str)
| LExperiments (n : nat)
| LFailed (iteration : Z).

(** A line of the output: of the loop, or of the handler it calls. *)
Inductive line :=
| Own (m : loop_msg)
| Inner (m : msg).

(** How a pass of the loop ends: it goes on, it leaves the loop at [break],
    or [to_csv] could not write and its error leaves the function. *)
Inductive step :=
| Next (w : world) (out : list line)
| Break (w : world) (out : list line)
| Raised (w : world) (out : list line).

Definition world_of (s : step) : world :=
  match s with Next w _ | Break w _ | Raised w _ => w end.

Definition out_of (s : step) : list line :=
  match s with Next _ out | Break _ out | Raised _ out => out end.

(** [f"./data/BO_R{iteration}.csv"] *)
Definition csv_file_of (iteration : Z) : str :=
  lit "./data/BO_R" ++ Text.str_of_int iteration ++ lit ".csv".

Section Loop.
Variable parse_csv : str -> option DataFrame.

(** The text that [generate_sample_bo_data(iteration).to_csv(csv_file,
    index=False)] writes; the random draws and the format of the table are
    not modelled. *)
Variable sample_csv : Z -> str.

(** One pass of the loop of [run_bo_loop_example]. *)
Definition loop_body (iteration : Z) (w : world) (out : list line) : step :=
  let out := out ++ [Own LRule; Own (LIteration iteration); Own LRule] in
  let csv_file := csv_file_of iteration in
  let prepared :=
    if (iteration =? 0)%Z then Some (w, out)
    else if writable w csv_file
    then Some (write_file csv_file (sample_csv iteration) w,
               out ++ [Own (LGeneratedData iteration)])
    else None in
  match prepared with
  | None => Raised w out
  | Some (w1, out) =>
      let out := out ++ [Own (LProcessing csv_file)] in
      let handled := update_csv_data_handler parse_csv csv_file w1 in
      let out :=
        out ++ map Inner (drop (length (stdout w1)) (stdout handled.2)) in
      match handled.1 with
      | Some csv_data =>
          Next handled.2
            (out ++ [Own (LComplete iteration);
                     Own (LProtocolReady (protocol_filename iteration));
                     Own (LExperiments (length csv_data))])
      | None => Break handled.2 (out ++ [Own (LFailed iteration)])
      end
  end.

(** The loop over [iterations]. *)
Fixpoint bo_loop (iterations : list Z) (w : world) (out : list line) : step :=
  match iterations with
  | [] => Next w out
  | iteration :: rest =>
      match loop_body iteration w out with
      | Next w out => bo_loop rest w out
      | stop => stop
      end
  end.

(** [run_bo_loop_example()]: the loop over [range(3)]. *)
Definition run_bo_loop_example (w : world) : step :=
  bo_loop [0; 1; 2]%Z w [Own LTarget].

(** *** Facts about one pass *)

Lemma csv_file_iteration iteration :
  (0 <= iteration)%Z -> iteration_of (csv_file_of iteration) = iteration.
Proof.
  intros Hi. destruct (str_of_int_digits iteration Hi) as (Hne & Hds & Hint).
  unfold csv_file_of.
  change (lit "./data/BO_R" ++ Text.str_of_int iteration ++ lit ".csv")
    with (lit "./data/" ++ lit "BO_R" ++ Text.str_of_int iteration
          ++ lit ".csv").
  rewrite iteration_of_first; try done. by apply bo_r_first.
Qed.

Lemma handler_files csv_file_path w :
  files (update_csv_data_handler parse_csv csv_file_path w).2
  = files (generate_protocol_from_csv parse_csv csv_file_path
             (iteration_of csv_file_path) (lit ".") w).2.
Proof.
  unfold update_csv_data_handler.
  destruct (generate_protocol_from_csv _ _ _ _ _) as [[[[|c p]|]|e] w'];
    cbn; try done.
  destruct (read_csv parse_csv w' csv_file_path); cbn; by rewrite ?files_prints.
Qed.

(** The handler writes at most the protocol of the iteration. *)
Lemma handler_frame csv_file_path w q :
  q <> lit "./" ++ protocol_filename (iteration_of csv_file_path) ->
  files (update_csv_data_handler parse_csv csv_file_path w).2 !! q
  = files w !! q.
Proof.
  intros Hq. rewrite handler_files.
  eapply one_file_or_none_frame;
    [apply generate_protocol_from_csv_outcome | by rewrite path_join_dot].
Qed.

(** What a handler that returns a path has done. *)
Lemma handler_Some csv_file_path w csv_data :
  (update_csv_data_handler parse_csv csv_file_path w).1 = Some csv_data ->
  csv_data = lit "./" ++ protocol_filename (iteration_of csv_file_path)
  /\ exists protocol_content df d text,
       read_text w base_protocol_path = Some protocol_content
       /\ read_csv parse_csv w csv_file_path = CsvFrame df
       /\ bo_data df = Ok d
       /\ updated_content protocol_content d (iteration_of csv_file_path)
          = Ok text
       /\ files (update_csv_data_handler parse_csv csv_file_path w).2
            !! csv_data = Some text.
Proof.
  intros Hsome.
  assert (csv_data = lit "./" ++ protocol_filename (iteration_of csv_file_path))
    as Hpath.
  { destruct (update_csv_data_handler parse_csv csv_file_path w) as [r w'] eqn:E.
    simpl in Hsome. subst r. by apply handler_path in E. }
  split; [done|]. rewrite handler_files. revert Hsome.
  unfold update_csv_data_handler, generate_protocol_from_csv.
  destruct (read_csv parse_csv w csv_file_path) as [df| |] eqn:Hread;
    [|done..].
  destruct (bo_data df) as [d|e] eqn:Hd; [|done].
  cbn zeta. rewrite read_text_prints, writable_prints.
  destruct (read_text w base_protocol_path) as [protocol_content|] eqn:Hb;
    [|done].
  destruct (updated_content protocol_content d _) as [text|e] eqn:Ht; [|done].
  rewrite path_join_dot. destruct (writable w _); [|done].
  intros _. exists protocol_content, df, d, text.
  split_and!; [done..|]. cbn. rewrite ?files_prints, Hpath.
  apply lookup_insert_eq.
Qed.

End Loop.

Section LoopFacts.
Variable parse_csv : str -> option DataFrame.
Variable sample_csv : Z -> str.

Local Abbreviation loop_body := (loop_body parse_csv sample_csv).
Local Abbreviation bo_loop := (bo_loop parse_csv sample_csv).

Definition protocol_of (iteration : Z) : str :=
  lit "./" ++ protocol_filename iteration.

Lemma csv_file_of_inj i j : csv_file_of i = csv_file_of j -> i = j.
Proof.
  unfold csv_file_of. intros H%app_inv_head%app_inv_tail.
  by apply str_of_int_inj.
Qed.

Lemma protocol_of_inj i j : protocol_of i = protocol_of j -> i = j.
Proof.
  unfold protocol_of. intros H%app_inv_head. by apply protocol_filename_inj.
Qed.

Lemma protocol_of_csv_file i j : protocol_of i <> csv_file_of j.
Proof. unfold protocol_of, protocol_filename, csv_file_of. by intros [=]. Qed.

Lemma base_csv_file j : base_protocol_path <> csv_file_of j.
Proof. unfold csv_file_of. by intros [=]. Qed.

Lemma base_protocol_of j : base_protocol_path <> protocol_of j.
Proof. unfold protocol_of. by intros [=]. Qed.

(** A pass writes the table of its iteration, but for iteration 0, and the
    protocol of its iteration, and nothing else. *)
Lemma loop_body_frame i w out q :
  (0 <= i)%Z ->
  i = 0%Z \/ q <> csv_file_of i ->
  q <> protocol_of i ->
  files (world_of (loop_body i w out)) !! q = files w !! q.
Proof.
  intros Hi Hcsv Hq. unfold loop_body.
  assert (forall w1,
            files (update_csv_data_handler parse_csv (csv_file_of i) w1).2 !! q
            = files w1 !! q) as Hframe.
  { intros w1. apply handler_frame. by rewrite csv_file_iteration. }
  destruct (Z.eqb_spec i 0) as [->|Hne].
  - cbn zeta. specialize (Hframe w).
    by destruct (update_csv_data_handler parse_csv (csv_file_of 0) w).1.
  - destruct (writable w (csv_file_of i)); [|done]. cbn zeta.
    specialize (Hframe (write_file (csv_file_of i) (sample_csv i) w)).
    assert (files (write_file (csv_file_of i) (sample_csv i) w) !! q
            = files w !! q) as Hw.
    { cbn. apply lookup_insert_ne. destruct Hcsv as [?|?]; [done|].
      by intros <-. }
    by destruct (update_csv_data_handler parse_csv (csv_file_of i) _).1;
      cbn [world_of]; rewrite Hframe, Hw.
Qed.

(** What a pass that goes on has written. *)
Lemma loop_body_Next i w out w' out' :
  (0 <= i)%Z -> loop_body i w out = Next w' out' ->
  exists protocol_content df d text,
    read_text w base_protocol_path = Some protocol_content
    /\ (if (i =? 0)%Z
        then read_csv parse_csv w (csv_file_of 0) = CsvFrame df
        else parse_csv (sample_csv i) = Some df)
    /\ bo_data df = Ok d
    /\ updated_content protocol_content d i = Ok text
    /\ files w' !! protocol_of i = Some text.
Proof.
  intros Hi. unfold loop_body.
  destruct (Z.eqb_spec i 0) as [->|Hne].
  - cbn zeta.
    destruct (update_csv_data_handler parse_csv (csv_file_of 0) w).1
      as [csv_data|] eqn:Hh; [|done].
    intros [= <- _].
    apply handler_Some in Hh as (-> & pc & df & d & text & ? & ? & ? & Ht & Hf).
    rewrite (csv_file_iteration 0) in * by done.
    by exists pc, df, d, text.
  - destruct (writable w (csv_file_of i)); [|done]. cbn zeta.
    destruct (update_csv_data_handler parse_csv (csv_file_of i) _).1
      as [csv_data|] eqn:Hh; [|done].
    intros [= <- _].
    apply handler_Some in Hh
      as (-> & pc & df & d & text & Hb & Hread & ? & Ht & Hf).
    rewrite (csv_file_iteration i) in * by done.
    exists pc, df, d, text. split_and!; try done.
    + revert Hb. unfold read_text. cbn. rewrite lookup_insert_ne; [done|].
      intros E. by apply (base_csv_file i).
    + revert Hread. unfold read_csv. cbn. rewrite lookup_insert_eq.
      by destruct (parse_csv (sample_csv i)) as [df'|]; intros [= ->].
Qed.

(** The lines that a pass adds. *)
Lemma loop_body_out i w out m :
  (0 <= i)%Z ->
  Own m ∈ out_of (loop_body i w out) ->
  Own m ∈ out
  \/ m = LRule \/ m = LIteration i \/ m = LGeneratedData i
  \/ m = LProcessing (csv_file_of i)
  \/ ((exists w' out', loop_body i w out = Break w' out') /\ m = LFailed i)
  \/ ((exists w' out', loop_body i w out = Next w' out')
      /\ (m = LComplete i \/ m = LProtocolReady (protocol_filename i)
          \/ m = LExperiments (length (protocol_of i)))).
Proof.
  intros Hi. unfold loop_body.
  destruct (i =? 0)%Z eqn:Hi0; [|destruct (writable w (csv_file_of i))];
    cbn zeta.
  3:{ cbn. rewrite !elem_of_app, !elem_of_cons, elem_of_nil.
      intros H; destruct_or!; simplify_eq; eauto 12. }
  all: match goal with
       | |- context [update_csv_data_handler parse_csv ?p ?w1] =>
           destruct (update_csv_data_handler parse_csv p w1).1
             as [csv_data|] eqn:Hh
       end; cbn;
    rewrite !elem_of_app, !elem_of_cons, elem_of_nil, !list_elem_of_fmap.
  all: try (apply handler_Some in Hh as (-> & _);
            rewrite csv_file_iteration by done;
            fold (protocol_of i)).
  all: intros H; destruct_or!; destruct_and?; simplify_eq; eauto 12.
  all: try match goal with H : ex _ |- _ => destruct H as (? & ? & ?) end;
    simplify_eq.
Qed.

End LoopFacts.

Section LoopRuns.
Variable parse_csv : str -> option DataFrame.
Variable sample_csv : Z -> str.

Local Abbreviation loop_body := (loop_body parse_csv sample_csv).
Local Abbreviation bo_loop := (bo_loop parse_csv sample_csv).

Lemma loop_body_complete j w out i :
  (0 <= j)%Z ->
  Own (LComplete i) ∈ out_of (loop_body j w out) ->
  Own (LComplete i) ∈ out
  \/ (j = i /\ exists w' out', loop_body j w out = Next w' out').
Proof.
  intros Hj H. apply loop_body_out in H; [|done].
  destruct H as [?|[?|[?|[?|[?|[[_ ?]|[E [?|[?|?]]]]]]]]];
    try done; [by left|]. simplify_eq. by right.
Qed.

Lemma loop_body_failed j w out i :
  (0 <= j)%Z ->
  Own (LFailed i) ∈ out_of (loop_body j w out) ->
  Own (LFailed i) ∈ out
  \/ (j = i /\ exists w' out', loop_body j w out = Break w' out').
Proof.
  intros Hj H. apply loop_body_out in H; [|done].
  destruct H as [?|[?|[?|[?|[?|[[E ?]|[_ [?|[?|?]]]]]]]]];
    try done; [by left|]. simplify_eq. by right.
Qed.

Lemma loop_body_iteration j w out i :
  (0 <= j)%Z ->
  Own (LIteration i) ∈ out_of (loop_body j w out) ->
  Own (LIteration i) ∈ out \/ j = i.
Proof.
  intros Hj H. apply loop_body_out in H; [|done].
  destruct H as [?|[?|[?|[?|[?|[[_ ?]|[_ [?|[?|?]]]]]]]]];
    try done; [by left|]. simplify_eq. by right.
Qed.

Lemma loop_body_experiments j w out k :
  (0 <= j)%Z ->
  Own (LExperiments k) ∈ out_of (loop_body j w out) ->
  Own (LExperiments k) ∈ out \/ k = length (protocol_of j).
Proof.
  intros Hj H. apply loop_body_out in H; [|done].
  destruct H as [?|[?|[?|[?|[?|[[_ ?]|[_ [?|[?|?]]]]]]]]];
    try done; [by left|]. simplify_eq. by right.
Qed.

(** *** Facts about the loop *)

Lemma bo_loop_frame its w out q :
  Forall (fun i => (0 <= i)%Z /\ (i = 0%Z \/ q <> csv_file_of i)
                   /\ q <> protocol_of i) its ->
  files (world_of (bo_loop its w out)) !! q = files w !! q.
Proof.
  intros Hits. revert w out.
  induction Hits as [|i its (Hi & Hcsv & Hp) _ IH]; intros w out; [done|].
  simpl. pose proof (loop_body_frame parse_csv sample_csv i w out q Hi Hcsv Hp)
    as Hbody.
  destruct (loop_body i w out) as [w' out'|w' out'|w' out']; simpl in *;
    by rewrite ?IH.
Qed.

Lemma bo_loop_experiments its w out k :
  Forall (fun i => (0 <= i)%Z /\ length (protocol_of i) = 21) its ->
  (Own (LExperiments k) ∈ out -> k = 21) ->
  Own (LExperiments k) ∈ out_of (bo_loop its w out) -> k = 21.
Proof.
  intros Hits. revert w out.
  induction Hits as [|i its (Hi & Hlen) _ IH]; intros w out Hout; [done|].
  simpl.
  pose proof (loop_body_experiments i w out k Hi) as Hbody.
  destruct (loop_body i w out) as [w' out'|w' out'|w' out']; simpl in *.
  - apply IH. intros [?| ->]%Hbody; [auto|done].
  - intros [?| ->]%Hbody; [auto|done].
  - intros [?| ->]%Hbody; [auto|done].
Qed.

Lemma bo_loop_iteration its w out i :
  Forall (fun j => (0 <= j)%Z) its ->
  Own (LIteration i) ∈ out_of (bo_loop its w out) ->
  Own (LIteration i) ∈ out \/ i ∈ its.
Proof.
  intros Hits. revert w out.
  induction Hits as [|j its Hj _ IH]; intros w out; [by left|].
  simpl. pose proof (loop_body_iteration j w out i Hj) as Hbody.
  destruct (loop_body j w out) as [w' out'|w' out'|w' out']; simpl in *.
  - intros [[?| ->]%Hbody|?]%IH; [by left|right; apply list_elem_of_here|].
    right. by apply list_elem_of_further.
  - intros [?| ->]%Hbody; [by left|right; apply list_elem_of_here].
  - intros [?| ->]%Hbody; [by left|right; apply list_elem_of_here].
Qed.

(** The protocol of an iteration that the loop reports as complete. *)
Lemma bo_loop_complete its w out i :
  Forall (fun j => (0 <= j)%Z) its -> NoDup its ->
  Own (LComplete i) ∉ out ->
  Own (LComplete i) ∈ out_of (bo_loop its w out) ->
  exists protocol_content df d text,
    read_text w base_protocol_path = Some protocol_content
    /\ (if (i =? 0)%Z
        then read_csv parse_csv w (csv_file_of 0) = CsvFrame df
        else parse_csv (sample_csv i) = Some df)
    /\ bo_data df = Ok d
    /\ updated_content protocol_content d i = Ok text
    /\ files (world_of (bo_loop its w out)) !! protocol_of i = Some text.
Proof.
  intros Hits. revert w out.
  induction Hits as [|j its Hj Hits IH]; intros w out Hnd Hnot Hin; [done|].
  apply NoDup_cons in Hnd as [Hjn Hnd]. simpl in *.
  pose proof (loop_body_complete j w out i Hj) as Hbody.
  pose proof (loop_body_frame parse_csv sample_csv j w out) as Hframe.
  destruct (loop_body j w out) as [w' out'|w' out'|w' out'] eqn:E;
    simpl in *.
  - destruct (decide (j = i)) as [->|Hji].
    + destruct (loop_body_Next parse_csv sample_csv i w out w' out' Hj E)
        as (pc & df & d & text & ? & ? & ? & ? & Hf).
      exists pc, df, d, text. split_and!; try done.
      rewrite bo_loop_frame; [done|].
      apply Forall_forall. intros k Hk. rewrite Forall_forall in Hits.
      split_and!; [by apply Hits | right; apply protocol_of_csv_file |].
      intros ->%protocol_of_inj. done.
    + assert (Own (LComplete i) ∉ out') as Hnot'.
      { intros [?|[? _]]%Hbody; done. }
      destruct (IH w' out' Hnd Hnot' Hin)
        as (pc & df & d & text & Hb & Hdf & ? & ? & Hf).
      exists pc, df, d, text. split_and!; try done.
      * rewrite <- Hb. unfold read_text. f_equal. symmetry.
        apply Hframe; [done| |].
        -- right. apply base_csv_file.
        -- apply base_protocol_of.
      * destruct (i =? 0)%Z; [|done]. rewrite <- Hdf. symmetry.
        apply read_csv_same. apply Hframe; [done| |].
        -- destruct (decide (j = 0%Z)) as [->|?]; [by left|right].
           intros ?%csv_file_of_inj. done.
        -- intros E'. by apply (protocol_of_csv_file j 0%Z).
  - destruct (Hbody Hin) as [?|(_ & ? & ? & ?)]; done.
  - destruct (Hbody Hin) as [?|(_ & ? & ? & ?)]; done.
Qed.

(** Where the loop stops when an iteration has failed. *)
Lemma bo_loop_failed its w out i :
  Forall (fun j => (0 <= j)%Z) its ->
  Own (LFailed i) ∉ out ->
  Own (LFailed i) ∈ out_of (bo_loop its w out) ->
  exists pre post,
    its = pre ++ i :: post
    /\ bo_loop its w out = bo_loop (pre ++ [i]) w out.
Proof.
  intros Hits. revert w out.
  induction Hits as [|j its Hj Hits IH]; intros w out Hnot Hin; [done|].
  simpl in *.
  pose proof (loop_body_failed j w out i Hj) as Hbody.
  destruct (loop_body j w out) as [w' out'|w' out'|w' out'] eqn:E;
    simpl in *.
  - assert (Own (LFailed i) ∉ out') as Hnot'.
    { intros [?|(_ & ? & ? & ?)]%Hbody; done. }
    destruct (IH w' out' Hnot' Hin) as (pre & post & -> & Heq).
    exists (j :: pre), post. split; [done|]. simpl. by rewrite E.
  - destruct (Hbody Hin) as [?|[-> _]]; [done|].
    exists [], its. split; [done|]. simpl. by rewrite E.
  - destruct (Hbody Hin) as [?|(_ & ? & ? & ?)]; done.
Qed.

End LoopRuns.

(** X12: the size of the batch that the loop reports is the length of a
    path.  [update_csv_data_handler] returns the path of the protocol, so
    the number printed after [Experiments in this batch] is
    [len("./color_mixing_BO0.py")], 21 in each of the three iterations,
    whatever the table holds. *)
Theorem reported_batch_size_is_path_length parse_csv sample_csv w k :
  Own (LExperiments k)
    ∈ out_of (run_bo_loop_example parse_csv sample_csv w) ->
  k = 21 /\ k = length (protocol_of 0).
Proof.
  intros H. assert (k = 21) as ->; [|done].
  revert H. apply bo_loop_experiments.
  - by repeat constructor.
  - rewrite elem_of_cons, elem_of_nil. by intros [?|?].
Qed.

(** A world for the loop: the table of iteration 0, a base protocol, every
    path writable. *)
Definition loop_world : world :=
  World (<[base_protocol_path := example_base]>
           {[csv_file_of 0 := example_csv]})
        (fun _ => true) [].

Lemma reported_batch_size_is_path_length_witness :
  let out :=
    out_of (run_bo_loop_example example_parse (fun _ => example_csv)
              loop_world) in
  Own (LExperiments 21) ∈ out /\ 21 = 21 /\ 21 = length (protocol_of 0).
Proof.
  intros out.
  assert (Own (LExperiments 21) ∈ out) as Hin.
  { subst out. vm_compute.
    repeat first [apply list_elem_of_here | apply list_elem_of_further]. }
  split; [done|].
  exact (reported_batch_size_is_path_length example_parse
           (fun _ => example_csv) loop_world 21 Hin).
Defined.

(** X13: the files of the loop.  [run_bo_loop_example] writes no file
    but the tables of the iterations 1 and 2 and the protocols of the
    iterations 0, 1 and 2; the base protocol and the table of iteration 0
    are left as they were. *)
Theorem loop_writes_only_its_files parse_csv sample_csv w :
  let final := world_of (run_bo_loop_example parse_csv sample_csv w) in
  (forall q,
     q ∉ [csv_file_of 1; csv_file_of 2;
          protocol_of 0; protocol_of 1; protocol_of 2] ->
     files final !! q = files w !! q)
  /\ files final !! base_protocol_path = files w !! base_protocol_path
  /\ files final !! csv_file_of 0 = files w !! csv_file_of 0.
Proof.
  intros final.
  assert (forall q,
     q ∉ [csv_file_of 1; csv_file_of 2;
          protocol_of 0; protocol_of 1; protocol_of 2] ->
     files final !! q = files w !! q) as Hframe.
  { intros q Hq. apply bo_loop_frame.
    rewrite !not_elem_of_cons in Hq. destruct_and!.
    repeat constructor; try done; by right. }
  split_and!; [done|..]; apply Hframe; apply (bool_decide_unpack _);
    by vm_compute.
Qed.

Lemma loop_writes_only_its_files_witness :
  files (world_of (run_bo_loop_example example_parse (fun _ => example_csv)
                     loop_world)) !! lit "notes.txt"
  = files loop_world !! lit "notes.txt".
Proof.
  apply (loop_writes_only_its_files example_parse (fun _ => example_csv)
           loop_world).
  apply (bool_decide_unpack _). by vm_compute.
Defined.

(** X14: an iteration that the loop reports as complete has its protocol.
    When [run_bo_loop_example] prints that iteration [i] is complete, the
    file [./color_mixing_BO<i>.py] holds, when the loop has ended, the patch
    of the base protocol, as it was before the loop and as it is read in
    text mode, with the columns of the table of the iteration: the table
    found at [./data/BO_R0.csv] for iteration 0, the generated table for the
    others. *)
Theorem completed_iteration_has_protocol parse_csv sample_csv w i :
  Own (LComplete i) ∈ out_of (run_bo_loop_example parse_csv sample_csv w) ->
  exists protocol_content df d text,
    read_text w base_protocol_path = Some protocol_content
    /\ (if (i =? 0)%Z
        then read_csv parse_csv w (csv_file_of 0) = CsvFrame df
        else parse_csv (sample_csv i) = Some df)
    /\ bo_data df = Ok d
    /\ updated_content protocol_content d i = Ok text
    /\ files (world_of (run_bo_loop_example parse_csv sample_csv w))
         !! protocol_of i = Some text.
Proof.
  apply bo_loop_complete.
  - by repeat constructor.
  - apply (bool_decide_unpack _). by vm_compute.
  - rewrite elem_of_cons, elem_of_nil. by intros [?|?].
Qed.

Lemma completed_iteration_has_protocol_witness :
  let final :=
    run_bo_loop_example example_parse (fun _ => example_csv) loop_world in
  Own (LComplete 1) ∈ out_of final
  /\ exists protocol_content df d text,
       read_text loop_world base_protocol_path = Some protocol_content
       /\ example_parse example_csv = Some df
       /\ bo_data df = Ok d
       /\ updated_content protocol_content d 1 = Ok text
       /\ files (world_of final) !! protocol_of 1 = Some text.
Proof.
  intros final.
  assert (Own (LComplete 1) ∈ out_of final) as Hin.
  { subst final. vm_compute.
    repeat first [apply list_elem_of_here | apply list_elem_of_further]. }
  split; [done|].
  exact (completed_iteration_has_protocol example_parse
           (fun _ => example_csv) loop_world 1 Hin).
Defined.

(** X15: a failed iteration ends the loop.  When [run_bo_loop_example]
    prints that iteration [i] has failed, no later iteration is started:
    its banner is not printed, its table is not generated and its protocol
    is not written. *)
Theorem failed_iteration_ends_loop parse_csv sample_csv w i j :
  Own (LFailed i) ∈ out_of (run_bo_loop_example parse_csv sample_csv w) ->
  (i < j)%Z ->
  let final := run_bo_loop_example parse_csv sample_csv w in
  (Own (LIteration j) ∉ out_of final)
  /\ files (world_of final) !! csv_file_of j = files w !! csv_file_of j
  /\ files (world_of final) !! protocol_of j = files w !! protocol_of j.
Proof.
  intros Hin Hij final. subst final.
  destruct (bo_loop_failed parse_csv sample_csv [0; 1; 2]%Z w [Own LTarget] i)
    as (pre & post & Hits & Heq).
  { by repeat constructor. }
  { rewrite elem_of_cons, elem_of_nil. by intros [?|?]. }
  { done. }
  unfold run_bo_loop_example. rewrite Heq. clear Heq Hin.
  assert (Forall (fun k => (0 <= k < j)%Z) (pre ++ [i])) as Hlt.
  { destruct pre as [|a [|b [|c pre]]]; simplify_eq/=;
      [..|by destruct pre]; repeat constructor; lia. }
  split_and!.
  - intros [Hout|Hmem]%bo_loop_iteration.
    + revert Hout. rewrite elem_of_cons, elem_of_nil. by intros [?|?].
    + rewrite Forall_forall in Hlt. apply Hlt in Hmem. lia.
    + eapply Forall_impl; [exact Hlt|]. intros; simpl in *; lia.
  - apply bo_loop_frame. eapply Forall_impl; [exact Hlt|].
    intros k Hk. simpl in *. split_and!; [lia| |].
    + right. intros ?%csv_file_of_inj. lia.
    + intros E. by apply (protocol_of_csv_file k j).
  - apply bo_loop_frame. eapply Forall_impl; [exact Hlt|].
    intros k Hk. simpl in *. split_and!; [lia| |].
    + right. apply protocol_of_csv_file.
    + intros ?%protocol_of_inj. lia.
Qed.

(** A world without the base protocol. *)
Definition world_without_base : world :=
  World {[csv_file_of 0 := example_csv]} (fun _ => true) [].

Lemma failed_iteration_ends_loop_witness :
  let final :=
    run_bo_loop_example example_parse (fun _ => example_csv)
      world_without_base in
  Own (LFailed 0) ∈ out_of final
  /\ (Own (LIteration 1) ∉ out_of final)
  /\ files (world_of final) !! csv_file_of 1
     = files world_without_base !! csv_file_of 1
  /\ files (world_of final) !! protocol_of 1
     = files world_without_base !! protocol_of 1.
Proof.
  intros final.
  assert (Own (LFailed 0) ∈ out_of final) as Hin.
  { subst final. vm_compute.
    repeat first [apply list_elem_of_here | apply list_elem_of_further]. }
  split; [done|].
  apply (failed_iteration_ends_loop example_parse (fun _ => example_csv)
           world_without_base 0 1 Hin).
  lia.
Defined.

(** * The helpers at the end of [protocol_generator.py] *)

(** What the helpers print themselves. *)
Inductive helper_msg :=
| HTestSuccessful (protocol_path : str)
| HTestFailed
| HCreatedSample (csv_path : str).

(** A line of the output of a helper: its own, or of the generator. *)
Inductive helper_line :=
| Said (m : helper_msg)
| Generator (m : msg).



(** The lines that the generator printed between [w] and [w']. *)
Definition generator_lines (w w' : world) : list helper_line :=
  map Generator (drop (length (stdout w)) (stdout w')).

Section Helpers.
Variable parse_csv : str -> option DataFrame.

(** The text that [df.to_csv(csv_path, index=False)] writes for a frame;
    the format of the table is not modelled. *)
Variable to_csv : DataFrame -> str.

(** [test_protocol_generation()] *)
Definition test_protocol_generation (w : world)
  : result (option str) * world * list helper_line :=
  let csv_path := lit "./data/BO_R0.csv" in
  let generated :=
    generate_protocol_from_csv parse_csv csv_path 0 (lit ".") w in
  let out := generator_lines w generated.2 in
  match generated.1 with
  | Raise e => (Raise e, generated.2, out)
  | Ok protocol_path =>
      (Ok protocol_path, generated.2,
       out ++ [Said match protocol_path with
                    | Some ((_ :: _) as p) => HTestSuccessful p
                    | _ => HTestFailed
                    end])
  end.


Lemma generator_lines_Said w w' m : Said m ∉ generator_lines w w'.
Proof.
  unfold generator_lines. intros (x & [=] & _)%list_elem_of_fmap.
Qed.


End Helpers.

(** X16: [test_protocol_generation] does for [./data/BO_R0.csv] what
    [update_csv_data_handler] does for it.  Both leave the same files; the
    test returns and reports a path exactly when the handler returns that
    path, and where the test reports a failure or an exception leaves it the
    handler returns [None]. *)
Theorem test_generation_matches_handler parse_csv (w : world) :
  let tested := test_protocol_generation parse_csv w in
  let handled :=
    update_csv_data_handler parse_csv (lit "./data/BO_R0.csv") w in
  files tested.1.2 = files handled.2
  /\ (forall p, tested.1.1 = Ok (Some p) <-> handled.1 = Some p)
  /\ (forall p, Said (HTestSuccessful p) ∈ tested.2 <-> handled.1 = Some p)
  /\ (Said HTestFailed ∈ tested.2 \/ (exists e, tested.1.1 = Raise e)
      <-> handled.1 = None).
Proof.
  intros tested handled.
  assert (iteration_of (lit "./data/BO_R0.csv") = 0%Z) as Hit by by vm_compute.
  destruct (handler_follows_generator parse_csv (lit "./data/BO_R0.csv") w)
    as (Hfiles & Hsome & _).
  { by vm_compute. }
  rewrite Hit in Hfiles, Hsome. fold handled in Hfiles, Hsome.
  pose proof (generate_protocol_from_csv_outcome parse_csv
                (lit "./data/BO_R0.csv") 0 (lit ".") w) as Hout.
  subst tested. unfold test_protocol_generation.
  pose proof (generator_lines_Said w
                (generate_protocol_from_csv parse_csv (lit "./data/BO_R0.csv")
                   0 (lit ".") w).2) as Hgen.
  destruct (generate_protocol_from_csv parse_csv (lit "./data/BO_R0.csv")
              0 (lit ".") w) as [[[p0|]|e] w'] eqn:Hg; cbn -[lit] in *.
  - assert (handled.1 = Some p0) as Hh by by apply Hsome.
    assert (p0 <> []) as Hp0.
    { destruct Hout as [(? & ? & ? & _ & _ & _ & _ & [= ->] & _)|[Hno _]];
        [done|by destruct (Hno p0)]. }
    destruct p0 as [|c p0]; [done|]. rewrite Hh. split_and!; [done|..].
    + intros p. split; by intros [= ->].
    + intros p. rewrite elem_of_app, list_elem_of_singleton. split.
      * intros [H|[= ->]]; [by apply Hgen in H|done].
      * intros [= ->]. by right.
    + rewrite elem_of_app, list_elem_of_singleton. split; [|done].
      intros [[H|[=]]|[e [=]]]. by apply Hgen in H.
  - assert (handled.1 = None) as Hh.
    { destruct handled.1 as [p|]; [|done].
      destruct (Hsome p) as [H _]. by specialize (H eq_refl). }
    rewrite Hh. split_and!; [done|..].
    + intros p. by split.
    + intros p. rewrite elem_of_app, list_elem_of_singleton. split; [|done].
      intros [H|[=]]. by apply Hgen in H.
    + rewrite elem_of_app, list_elem_of_singleton. split; [done|].
      intros _. left. by right.
  - assert (handled.1 = None) as Hh.
    { destruct handled.1 as [p|]; [|done].
      destruct (Hsome p) as [H _]. by specialize (H eq_refl). }
    rewrite Hh. split_and!; [done|..].
    + intros p. by split.
    + intros p. split; [|done]. intros H. by apply Hgen in H.
    + split; [done|]. intros _. right. by exists e.
Qed.





(** * The viewer on a generated data section *)

(** The lines of a text, each with its newline; the last one may lack
    it. *)
Fixpoint keep_ends (s : str) : list str :=
  match s with
  | [] => []
  | c :: s' =>
      if Ascii.eqb c LF then [c] :: keep_ends s'
      else match keep_ends s' with
           | [] => [[c]]
           | l :: ls => (c :: l) :: ls
           end
  end.

(** [f.readlines()] on a file that holds [text]. *)
Definition readlines (text : str) : list str :=
  keep_ends (universal_newlines text).

(** The text [s] does not hold the character [x]. *)
Definition avoids (x : ascii) (s : str) : bool :=
  forallb (fun c => negb (Ascii.eqb c x)) s.

(** The text of a cell that [json.dumps] takes from the data. *)
Definition cell_text (v : cell) : str :=
  match v with
  | CStr s => s
  | CFloat r => r
  | _ => []
  end.

(** Data without a close brace in its keys, strings and floats. *)
Definition brace_free (d : list (str * list cell)) : bool :=
  forallb (fun kv => avoids "}" (fst kv)
                     && forallb (fun v => avoids "}" (cell_text v)) (snd kv))
    d.

Section AvoidFacts.
Import Text.

Lemma avoids_Forall x s : avoids x s = true <-> Forall (fun c => c <> x) s.
Proof.
  unfold avoids. rewrite forallb_forall, Forall_forall.
  split; intros H c Hc.
  - apply list_elem_of_In, H in Hc. apply negb_true_iff in Hc.
    by apply Ascii.eqb_neq.
  - apply negb_true_iff, Ascii.eqb_neq. by apply H, list_elem_of_In.
Qed.

Lemma avoids_elem_of x s : avoids x s = true <-> x ∉ s.
Proof.
  rewrite avoids_Forall, Forall_forall. split.
  - intros H Hx. by apply (H x).
  - intros H c Hc ->. done.
Qed.

Lemma avoids_app x a b : avoids x (a ++ b) = avoids x a && avoids x b.
Proof. apply forallb_app. Qed.

Lemma avoids_flat_map {A} x (f : A -> str) l :
  Forall (fun a => avoids x (f a) = true) l ->
  avoids x (flat_map f l) = true.
Proof.
  induction 1 as [|a l Ha _ IH]; [done|]. simpl.
  by rewrite avoids_app, Ha, IH.
Qed.

Lemma avoids_join x sep parts :
  avoids x sep = true ->
  Forall (fun p => avoids x p = true) parts ->
  avoids x (join sep parts) = true.
Proof.
  intros Hsep. induction 1 as [|p ps Hp Hps IH]; [done|].
  destruct ps as [|q ps]; [done|].
  change (join sep (p :: q :: ps)) with (p ++ sep ++ join sep (q :: ps)).
  by rewrite !avoids_app, Hp, Hsep, IH.
Qed.

Lemma avoids_spaces x n : x <> " "%char -> avoids x (spaces n) = true.
Proof.
  intros Hx. apply avoids_Forall, Forall_forall.
  intros c Hc%list_elem_of_In%repeat_spec. by subst.
Qed.

Lemma avoids_str_of_int x n :
  is_digit x = false -> x <> "-"%char -> avoids x (str_of_int n) = true.
Proof.
  intros Hd Hm.
  assert (forall s, Forall (fun c => is_digit c = true) s -> avoids x s = true)
    as Hdigits.
  { intros s Hs. apply avoids_Forall. eapply Forall_impl; [exact Hs|].
    intros c Hc ->. congruence. }
  assert (forall p, avoids x (lit (NilZero.string_of_uint (Pos.to_uint p)))
                    = true) as Hpos.
  { intros p.
    assert (NilZero.string_of_uint (Pos.to_uint p)
            = NilEmpty.string_of_uint (Pos.to_uint p)) as ->.
    { pose proof (DecimalPos.Unsigned.of_to p) as Hp.
      by destruct (Pos.to_uint p). }
    apply Hdigits, uint_digits. }
  unfold str_of_int. destruct n as [|p|p].
  - apply Hdigits. by repeat constructor.
  - apply Hpos.
  - cbn [Z.to_int NilZero.string_of_int lit list_ascii_of_string].
    change (avoids x ("-"%char :: ?s))
      with (negb (Ascii.eqb "-" x) && avoids x s).
    apply andb_true_intro. split; [|apply Hpos].
    apply negb_true_iff, Ascii.eqb_neq. by intros <-.
Qed.

(** [json.dumps] writes a close brace only for a close brace. *)
Lemma escape_char_brace c :
  c <> "}"%char -> avoids "}" (Json.escape_char c) = true.
Proof.
  destruct c as [[] [] [] [] [] [] [] []].
  all: vm_compute.
  all: try reflexivity.
  all: intros H; by destruct H.
Qed.

Lemma encode_str_brace s :
  avoids "}" s = true -> avoids "}" (Json.encode_str s) = true.
Proof.
  intros H. unfold Json.encode_str.
  change (dquote :: ?y) with ([dquote] ++ y).
  rewrite !avoids_app. simpl. rewrite andb_true_r.
  apply avoids_flat_map. apply avoids_Forall in H.
  eapply Forall_impl; [exact H|]. intros c Hc. by apply escape_char_brace.
Qed.

Lemma encode_cell_brace v :
  avoids "}" (cell_text v) = true -> avoids "}" (Json.encode_cell v) = true.
Proof.
  destruct v as [|n|r| |[]|[]|s]; simpl; intros H; try done.
  - by apply avoids_str_of_int.
  - by apply encode_str_brace.
Qed.

Lemma newline_indent_brace i l : avoids "}" (Json.newline_indent i l) = true.
Proof. unfold Json.newline_indent. simpl. by apply avoids_spaces. Qed.

Lemma encode_list_brace i l vs :
  forallb (fun v => avoids "}" (cell_text v)) vs = true ->
  avoids "}" (Json.encode_list i l vs) = true.
Proof.
  intros H. unfold Json.encode_list. destruct vs as [|v vs]; [done|].
  rewrite !avoids_app.
  repeat (apply andb_true_intro; split);
    try done; try apply newline_indent_brace.
  apply avoids_join.
  - by rewrite avoids_app, newline_indent_brace.
  - apply Forall_forall. intros p (v' & -> & Hv)%list_elem_of_fmap.
    rewrite forallb_forall in H. by apply encode_cell_brace, H, list_elem_of_In.
Qed.

(** The rendering of [json.dumps] between its two braces. *)
Lemma dumps_body d i :
  brace_free d = true ->
  exists body,
    Json.dumps d i = "{"%char :: body ++ ["}"%char]
    /\ avoids "}" body = true.
Proof.
  intros H. unfold Json.dumps. destruct d as [|kv d].
  - by exists [].
  - eexists. split.
    + change (lit "{" ++ ?y) with ("{"%char :: y). f_equal.
      change (lit "}") with ["}"%char]. by rewrite !app_assoc.
    + rewrite !avoids_app, !newline_indent_brace. rewrite andb_true_r.
      cbn [andb]. apply avoids_join.
      * by rewrite avoids_app, newline_indent_brace.
      * apply Forall_forall. intros p (kv' & -> & Hkv)%list_elem_of_fmap.
        unfold brace_free in H. rewrite forallb_forall in H.
        apply list_elem_of_In, H, andb_true_iff in Hkv as [Hk Hv].
        unfold Json.encode_item. rewrite !avoids_app.
        by rewrite encode_str_brace, encode_list_brace.
Qed.

Lemma flat_map_avoids x new s :
  avoids x s = true ->
  flat_map (fun c => if Ascii.eqb x c then new else [c]) s = s.
Proof.
  intros H%avoids_Forall. induction H as [|c s Hc _ IH]; [done|]. simpl.
  apply not_eq_sym, Ascii.eqb_neq in Hc. by rewrite Hc, IH.
Qed.

(** The data section is a marker line, lines without a close brace, and
    the line of the close brace. *)
Lemma data_section_lines d n :
  brace_free d = true ->
  exists body,
    data_section d n
    = (lit "    # BO ITERATION DATA - BO" ++ str_of_int n)
      ++ LF :: (lit "    BO_DATA = {" ++ body) ++ LF :: lit "    }"
    /\ avoids "}" body = true.
Proof.
  intros H. destruct (dumps_body d 8 H) as (body & Hbody & Hfree).
  unfold data_section. rewrite Hbody.
  change (lit "}") with ["}"%char]. change (lit "{") with ["{"%char].
  rewrite !replace_single.
  set (f1 := fun c : ascii => if Ascii.eqb "{" c
                              then ["{"%char] ++ "010"%char :: lit "        "
                              else [c]).
  set (f2 := fun c : ascii => if Ascii.eqb "}" c
                              then "010"%char :: lit "    }" else [c]).
  exists (LF :: lit "        " ++ flat_map f1 body).
  assert (avoids "}" (flat_map f1 body) = true) as Hf1.
  { apply avoids_flat_map. apply avoids_Forall in Hfree.
    eapply Forall_impl; [exact Hfree|]. intros c Hc. unfold f1.
    destruct (Ascii.eqb "{" c); [done|]. simpl. rewrite andb_true_r.
    by apply negb_true_iff, Ascii.eqb_neq. }
  split.
  - change ("{"%char :: body ++ ["}"%char])
      with (["{"%char] ++ body ++ ["}"%char]).
    rewrite !flat_map_app.
    assert (flat_map f2 (flat_map f1 body) = flat_map f1 body) as ->.
    { by apply flat_map_avoids. }
    change (flat_map f2 (flat_map f1 ["{"%char]))
      with (lit "{" ++ LF :: lit "        ").
    change (flat_map f2 (flat_map f1 ["}"%char])) with (LF :: lit "    }").
    by rewrite <- !app_assoc.
  - change (avoids "}" (LF :: ?y)) with (avoids "}" y).
    by rewrite avoids_app, Hf1.
Qed.

End AvoidFacts.

Section ReadlinesFacts.
Import Text.

Lemma keep_ends_line a : LF ∉ a -> keep_ends (a ++ [LF]) = [a ++ [LF]].
Proof.
  induction a as [|c a IH]; [done|]. intros H.
  apply not_elem_of_cons in H as [Hc Ha]. simpl.
  apply not_eq_sym, Ascii.eqb_neq in Hc. rewrite Hc. by rewrite IH.
Qed.

Lemma keep_ends_cons c s : keep_ends (c :: s) <> [].
Proof. simpl. destruct (Ascii.eqb c LF); [done|]. by destruct (keep_ends s). Qed.

Lemma keep_ends_app a b :
  keep_ends (a ++ LF :: b) = keep_ends (a ++ [LF]) ++ keep_ends b.
Proof.
  induction a as [|c a IH]; [done|]. simpl.
  destruct (Ascii.eqb c LF); [by rewrite IH|]. rewrite IH.
  destruct (keep_ends (a ++ [LF])) as [|l ls] eqn:E; [|done].
  by destruct a; apply keep_ends_cons in E.
Qed.

Lemma keep_ends_Forall (P : ascii -> Prop) s :
  Forall P s -> Forall (Forall P) (keep_ends s).
Proof.
  induction 1 as [|c s Hc Hs IH]; [constructor|]. simpl.
  destruct (Ascii.eqb c LF); [by repeat constructor|].
  destruct (keep_ends s) as [|l ls]; [by repeat constructor|].
  apply Forall_cons in IH as [Hl Hls]. by repeat constructor.
Qed.

Lemma lstrip_elem_of c s : c ∈ lstrip s -> c ∈ s.
Proof.
  induction s as [|a s IH]; [done|]. simpl.
  destruct (is_space a); [|done]. intros H. by apply list_elem_of_further, IH.
Qed.

Lemma strip_elem_of c s : c ∈ strip s -> c ∈ s.
Proof.
  unfold strip. intros H%list_elem_of_In%in_rev%list_elem_of_In%lstrip_elem_of.
  by apply list_elem_of_In, in_rev, list_elem_of_In, lstrip_elem_of in H.
Qed.

Lemma lstrip_snoc s c :
  is_space c = false -> exists s', lstrip (s ++ [c]) = s' ++ [c].
Proof.
  intros Hc. induction s as [|a s [s' IH]]; simpl.
  - rewrite Hc. by exists [].
  - destruct (is_space a); [by exists s'|]. by exists (a :: s).
Qed.

Lemma keep_ends_section head mid closing after :
  LF ∉ head -> LF ∉ closing ->
  keep_ends (head ++ LF :: mid ++ LF :: closing ++ LF :: after)
  = (head ++ [LF]) :: keep_ends (mid ++ [LF])
    ++ (closing ++ [LF]) :: keep_ends after.
Proof.
  intros Hh Hc. rewrite keep_ends_app, (keep_ends_line head Hh). cbn [app].
  f_equal. rewrite keep_ends_app. f_equal.
  by rewrite keep_ends_app, (keep_ends_line closing Hc).
Qed.

Lemma section_text {A} (head mid close rest after : list A) (x : A) :
  (head ++ x :: mid ++ x :: close) ++ rest ++ x :: after
  = head ++ x :: mid ++ x :: (close ++ rest) ++ x :: after.
Proof.
  rewrite <- !app_assoc. cbn [app]. rewrite <- ?app_assoc. cbn [app].
  by rewrite <- ?app_assoc.
Qed.

Lemma section_end {A} (head mid close rest : list A) (x : A) :
  (head ++ x :: mid ++ x :: close) ++ rest ++ [x]
  = head ++ x :: mid ++ x :: (close ++ rest) ++ [x].
Proof. apply section_text. Qed.

(** A line without a close brace does not end the scan. *)
Lemma closes_brace_free l : avoids "}" l = true -> closes l = false.
Proof.
  intros H%avoids_elem_of. unfold closes.
  destruct (starts_with (lit "}") (strip l)) eqn:E; [|apply andb_false_r].
  destruct H. apply strip_elem_of.
  destruct (strip l) as [|c s]; [done|].
  change (starts_with (lit "}") (c :: s))
    with (Ascii.eqb "}" c && starts_with [] s) in E.
  apply andb_true_iff in E as [E _]. apply Ascii.eqb_eq in E as <-.
  apply list_elem_of_here.
Qed.

Lemma starts_with_contains p s :
  starts_with p s = true -> contains p s = true.
Proof. intros H. destruct s; simpl; by rewrite H. Qed.

Lemma contains_cons p c s : contains p s = true -> contains p (c :: s) = true.
Proof. intros H. simpl. rewrite H. apply orb_true_r. Qed.

Lemma contains_cons_ne a p c s :
  a <> c -> contains (a :: p) (c :: s) = contains (a :: p) s.
Proof.
  intros H. apply Ascii.eqb_neq in H.
  change (contains (a :: p) (c :: s))
    with (Ascii.eqb a c && starts_with p s || contains (a :: p) s).
  by rewrite H.
Qed.

(** The line of the close brace ends the scan. *)
Lemma closes_closing rest :
  contains data_marker (rest ++ [LF]) = false ->
  closes (lit "    }" ++ rest ++ [LF]) = true.
Proof.
  intros H. unfold closes. apply andb_true_intro. split.
  - apply negb_true_iff.
    change (lit "    }" ++ rest ++ [LF])
      with (" "%char :: " "%char :: " "%char :: " "%char :: "}"%char
            :: (rest ++ [LF])).
    unfold data_marker.
    change (lit "# BO ITERATION DATA")
      with ("#"%char :: lit " BO ITERATION DATA").
    by rewrite !contains_cons_ne.
  - unfold strip.
    change (lstrip (lit "    }" ++ rest ++ [LF]))
      with ("}"%char :: (rest ++ [LF])).
    change (rev ("}"%char :: (rest ++ [LF])))
      with (rev (rest ++ [LF]) ++ ["}"%char]).
    destruct (lstrip_snoc (rev (rest ++ [LF])) "}") as [s' ->]; [done|].
    by rewrite rev_app_distr.
Qed.

(** The marker line of a data section is a marker line of the scan. *)
Lemma marker_line n :
  contains data_marker
    ((lit "    # BO ITERATION DATA - BO" ++ str_of_int n) ++ [LF]) = true.
Proof.
  change ((lit "    # BO ITERATION DATA - BO" ++ str_of_int n) ++ [LF])
    with (" "%char :: " "%char :: " "%char :: " "%char
          :: (data_marker ++ lit " - BO" ++ str_of_int n ++ [LF])).
  do 4 apply contains_cons. apply starts_with_contains, starts_with_app.
Qed.

End ReadlinesFacts.

(** X18: on a protocol that holds a data section as the generator renders
    it, the scan of [demonstrate_protocol_content] collects that section and
    nothing else.  For data without a close brace in its keys, strings and
    floats, in a file without carriage returns whose earlier lines do not
    hold [# BO ITERATION DATA], the lines collected are the stripped lines
    of the data section, from its marker line to the line of its close
    brace, with what follows the brace on that line. *)
Theorem viewer_shows_data_section before d n rest after :
  brace_free d = true ->
  let text := before ++ data_section d n ++ rest ++ LF :: after in
  CR ∉ text ->
  before = [] \/ last before = Some LF ->
  Forall (fun l => Text.contains data_marker l = false) (keep_ends before) ->
  LF ∉ rest ->
  Text.contains data_marker (rest ++ [LF]) = false ->
  data_lines (readlines text)
  = map strip (keep_ends (data_section d n ++ rest ++ [LF])).
Proof.
  intros Hd text Hcr Hbefore Hpre Hrest Hmark. unfold readlines.
  rewrite (universal_newlines_id _ Hcr). subst text.
  destruct (data_section_lines d n Hd) as (body & -> & Hbody).
  set (head := lit "    # BO ITERATION DATA - BO" ++ Text.str_of_int n).
  set (mid := lit "    BO_DATA = {" ++ body).
  assert (LF ∉ head) as Hhead.
  { apply avoids_elem_of. unfold head. rewrite avoids_app.
    by rewrite avoids_str_of_int. }
  set (closing := lit "    }" ++ rest).
  assert (LF ∉ closing) as Hclosing.
  { apply avoids_elem_of. unfold closing. rewrite avoids_app.
    apply andb_true_intro. split; [done|]. by apply avoids_elem_of. }
  rewrite section_text, section_end. fold closing.
  assert (keep_ends (before ++ head ++ LF :: mid ++ LF :: closing ++ LF :: after)
          = keep_ends before
            ++ keep_ends (head ++ LF :: mid ++ LF :: closing ++ LF :: after))
    as ->.
  { destruct Hbefore as [->|Hlast]; [done|].
    apply last_Some in Hlast as [before' ->].
    rewrite <- app_assoc. cbn [app]. by rewrite keep_ends_app. }
  rewrite (keep_ends_section head mid closing after Hhead Hclosing).
  replace (head ++ LF :: mid ++ LF :: closing ++ [LF])
    with (head ++ LF :: mid ++ LF :: closing ++ LF :: []) by done.
  rewrite (keep_ends_section head mid closing [] Hhead Hclosing).
  cbn [keep_ends].
  destruct (data_lines_scan (keep_ends before) (head ++ [LF])
              (keep_ends (mid ++ [LF]))) as (_ & _ & Hblock).
  - exact Hpre.
  - apply marker_line.
  - assert (Forall (Forall (fun c => c <> "}"%char)) (keep_ends (mid ++ [LF])))
      as Hmid.
    { apply keep_ends_Forall, avoids_Forall. unfold mid.
      by rewrite !avoids_app, Hbody. }
    eapply Forall_impl; [exact Hmid|]. intros l Hl.
    by apply closes_brace_free, avoids_Forall.
  - apply Hblock. unfold closing. rewrite <- app_assoc.
    by apply closes_closing.
Qed.

(** A generated protocol: lines before the data section, and the comment
    that follows it. *)
Definition viewed_before : str := lit "from opentrons import protocol_api

def run(protocol):
".

Definition viewed_after : str := lit "    protocol.comment('ready')
".

Lemma viewer_shows_data_section_witness :
  data_lines
    (readlines (viewed_before ++ data_section example_batch 2 ++ []
                ++ LF :: viewed_after))
  = map strip (keep_ends (data_section example_batch 2 ++ [] ++ [LF])).
Proof.
  apply (viewer_shows_data_section viewed_before example_batch 2 []
           viewed_after).
  - by vm_compute.
  - apply avoids_elem_of. by vm_compute.
  - right. by vm_compute.
  - apply (bool_decide_unpack _). by vm_compute.
  - apply not_elem_of_nil.
  - by vm_compute.
Defined.
